(** * liquid-glass.js: the <liquid-glass> custom element

    A shallow embedding of [src/liquid-glass.js] and the properties of its
    filter pipeline: parameter resolution, the cache key, the displacement
    map and filter documents, the update cycle, frame coalescing and the
    capability probe.

    Conventions of the embedding.
    - A JavaScript number is an exact decimal [m * 10^e], or NaN, or an
      infinity.  Rounding to binary64 is not modelled: a literal with more
      than 17 significant digits, a sum such as 0.1 + 0.2 or a quotient
      keeps its exact value here, and nothing overflows to an infinity or
      underflows to zero.  On whole numbers of magnitude at most 2^53 the
      two agree: each is a binary64 value, is read and printed digit for
      digit, and sums and products that stay in that range are exact.  A
      statement that names the value or the digits of a parsed number, of
      a sum or of a product is made for such numbers; statements that only
      compare numbers or pass them on hold for all.  Negative zero is
      identified with zero: the program prints numbers, does arithmetic on
      them and compares them with zero, and all of these agree on the two
      zeros.
    - A DOM string is a [string] of bytes, the UTF-8 encoding of its text.
    - The element's style declaration is an output channel: an update cycle
      returns the list of [setProperty] / [removeProperty] calls it makes. *)

From Stdlib Require Import ZArith NArith Ascii String List Lia Bool QArith Qround.
From stdpp Require Import base gmap strings list.

Local Open Scope Z_scope.

(** ** Characters and decimal digits *)

Definition digit_char (d : Z) : ascii :=
  match d with
  | 0 => "0" | 1 => "1" | 2 => "2" | 3 => "3" | 4 => "4"
  | 5 => "5" | 6 => "6" | 7 => "7" | 8 => "8" | _ => "9"
  end%char.

Definition digit_value (c : ascii) : option Z :=
  Z.of_nat <$> Ascii.is_nat c.

Definition is_digit (c : ascii) : bool :=
  match digit_value c with Some _ => true | None => false end.

Definition digit (c : ascii) : Prop := is_digit c = true.

(** The decimal digits of a non-negative integer, most significant first.
    [fuel] bounds the number of digits. *)
Fixpoint digits_fuel (fuel : nat) (n : Z) : list ascii :=
  match fuel with
  | O => [digit_char (n mod 10)]
  | S fuel' =>
      if n <? 10 then [digit_char n]
      else digits_fuel fuel' (n / 10) ++ [digit_char (n mod 10)]
  end.

Definition digits (n : Z) : list ascii :=
  digits_fuel (Z.to_nat (Z.log2 n)) n.

(** The value of a digit string, read left to right from [acc]. *)
Fixpoint digits_value (acc : Z) (cs : list ascii) : Z :=
  match cs with
  | [] => acc
  | c :: cs' => digits_value (10 * acc + default 0 (digit_value c)) cs'
  end.

(** ** Numbers *)

Inductive number : Type :=
| NaN
| Infinity (negative : bool)
| Dec (m e : Z).

#[global] Instance number_eq_dec : EqDecision number.
Proof. solve_decision. Defined.

(** [Dec m e] is in canonical form when [m] carries no factor of ten; zero
    is [Dec 0 0].  Equal values in canonical form are equal terms. *)
Definition canonical (x : number) : Prop :=
  match x with
  | Dec m e => if decide (m = 0) then e = 0 else m mod 10 ≠ 0
  | _ => True
  end.

#[global] Instance canonical_dec x : Decision (canonical x).
Proof. destruct x; simpl; try case_decide; apply _. Defined.

Fixpoint strip_zeros (fuel : nat) (m e : Z) : Z * Z :=
  match fuel with
  | O => (m, e)
  | S fuel' =>
      if decide (m mod 10 = 0) then strip_zeros fuel' (m / 10) (e + 1)
      else (m, e)
  end.

Definition norm (m e : Z) : number :=
  if decide (m = 0) then Dec 0 0
  else let '(m', e') := strip_zeros (Z.to_nat (Z.log2 (Z.abs m))) m e in
       Dec m' e'.

Definition ofZ (z : Z) : number := norm z 0.

(** Both mantissas brought to the smaller exponent. *)
Definition align (m1 e1 m2 e2 : Z) : Z * Z * Z :=
  let e := Z.min e1 e2 in
  (m1 * 10 ^ (e1 - e), m2 * 10 ^ (e2 - e), e).

Definition neg (x : number) : number :=
  match x with
  | NaN => NaN
  | Infinity s => Infinity (negb s)
  | Dec m e => Dec (- m) e
  end.

(** [x + y], exact: the program's sum is this one rounded to binary64, and
    is this one whenever the exact sum is a binary64 value, as for whole
    numbers up to 2^53. *)
Definition add (x y : number) : number :=
  match x, y with
  | NaN, _ | _, NaN => NaN
  | Infinity s1, Infinity s2 => if bool_decide (s1 = s2) then x else NaN
  | Infinity _, Dec _ _ => x
  | Dec _ _, Infinity _ => y
  | Dec m1 e1, Dec m2 e2 =>
      let '(a, b, e) := align m1 e1 m2 e2 in norm (a + b) e
  end.

(** [x - y] *)
Definition sub (x y : number) : number := add x (neg y).

(** [x * y], exact in the same way. *)
Definition mul (x y : number) : number :=
  match x, y with
  | NaN, _ | _, NaN => NaN
  | Infinity s1, Infinity s2 => Infinity (xorb s1 s2)
  | Infinity s, Dec m _ | Dec m _, Infinity s =>
      if decide (m = 0) then NaN else Infinity (xorb s (m <? 0))
  | Dec m1 e1, Dec m2 e2 => norm (m1 * m2) (e1 + e2)
  end.

(** [x > y] *)
Definition gt (x y : number) : bool :=
  match x, y with
  | NaN, _ | _, NaN => false
  | Infinity s1, Infinity s2 => negb s1 && s2
  | Infinity s, Dec _ _ => negb s
  | Dec _ _, Infinity s => s
  | Dec m1 e1, Dec m2 e2 =>
      let '(a, b, _) := align m1 e1 m2 e2 in b <? a
  end.

(** [x === y] on two numbers: NaN equals nothing. *)
Definition strict_eq (x y : number) : bool :=
  match x, y with
  | NaN, _ | _, NaN => false
  | Infinity s1, Infinity s2 => bool_decide (s1 = s2)
  | Dec m1 e1, Dec m2 e2 =>
      let '(a, b, _) := align m1 e1 m2 e2 in a =? b
  | _, _ => false
  end.

(** [!x]: a number is falsy when it is zero or NaN. *)
Definition falsy (x : number) : bool :=
  match x with
  | NaN => true
  | Infinity _ => false
  | Dec m _ => m =? 0
  end.

(** [Math.round(x)]: the nearest integer, halves rounded up. *)
Definition Math_round (x : number) : number :=
  match x with
  | Dec m e =>
      if 0 <=? e then norm m e
      else ofZ ((2 * m + 10 ^ (- e)) / (2 * 10 ^ (- e)))
  | _ => x
  end.

(** ** Number to string *)

Definition zeros (n : Z) : list ascii := replicate (Z.to_nat n) "0"%char.

(** [Number::toString] on a positive decimal: with [k] digits and
    [n = e + k], the four layouts of the language definition. *)
Definition positive_chars (m e : Z) : list ascii :=
  let ds := digits m in
  let k := Z.of_nat (length ds) in
  let n := e + k in
  if (k <=? n) && (n <=? 21) then ds ++ zeros (n - k)
  else if (0 <? n) && (n <=? 21) then
    take (Z.to_nat n) ds ++ "."%char :: drop (Z.to_nat n) ds
  else if (-6 <? n) && (n <=? 0) then
    "0"%char :: "."%char :: zeros (- n) ++ ds
  else
    let sign := if n - 1 <? 0 then "-"%char else "+"%char in
    let ex := sign :: digits (Z.abs (n - 1)) in
    match ds with
    | [d] => d :: "e"%char :: ex
    | d :: rest => d :: "."%char :: rest ++ "e"%char :: ex
    | [] => ex
    end.

Definition number_chars (x : number) : list ascii :=
  match x with
  | NaN => list_ascii_of_string "NaN"
  | Infinity false => list_ascii_of_string "Infinity"
  | Infinity true => list_ascii_of_string "-Infinity"
  | Dec m e =>
      if decide (m = 0) then ["0"%char]
      else if m <? 0 then "-"%char :: positive_chars (- m) e
      else positive_chars m e
  end.

(** [`${x}`] for a number [x]. *)
Definition ToString (x : number) : string :=
  string_of_list_ascii (number_chars x).

(** ** String to number: [parseFloat] *)

(** The white space [parseFloat] strips: the code points of WhiteSpace and
    LineTerminator, as the UTF-8 bytes a [string] holds.  In one byte: tab,
    line feed, vertical tab, form feed, carriage return and space.  In two
    bytes: U+00A0.  In three bytes: U+1680, U+2000 to U+200A, U+2028,
    U+2029, U+202F, U+205F, U+3000 and U+FEFF. *)
Definition space_in_two_bytes (b1 b2 : ascii) : bool :=
  ((N_of_ascii b1 =? 194) && (N_of_ascii b2 =? 160))%N.

Definition space_in_three_bytes (b1 b2 b3 : ascii) : bool :=
  let n1 := N_of_ascii b1 in
  let n2 := N_of_ascii b2 in
  let n3 := N_of_ascii b3 in
  ((n1 =? 225) && (n2 =? 154) && (n3 =? 128)
   || (n1 =? 226) && (n2 =? 128)
      && ((128 <=? n3) && (n3 <=? 138)
          || (n3 =? 168) || (n3 =? 169) || (n3 =? 175))
   || (n1 =? 226) && (n2 =? 129) && (n3 =? 159)
   || (n1 =? 227) && (n2 =? 128) && (n3 =? 128)
   || (n1 =? 239) && (n2 =? 187) && (n3 =? 191))%N.

Fixpoint trim_start (cs : list ascii) : list ascii :=
  match cs with
  | [] => []
  | b1 :: rest1 =>
      if Ascii.is_space b1 then trim_start rest1
      else
        match rest1 with
        | [] => cs
        | b2 :: rest2 =>
            if space_in_two_bytes b1 b2 then trim_start rest2
            else
              match rest2 with
              | [] => cs
              | b3 :: rest3 =>
                  if space_in_three_bytes b1 b2 b3 then trim_start rest3
                  else cs
              end
        end
  end.

(** The longest run of decimal digits at the head, and what follows it. *)
Fixpoint span_digits (cs : list ascii) : list ascii * list ascii :=
  match cs with
  | c :: rest =>
      if is_digit c then
        let '(ds, tl) := span_digits rest in (c :: ds, tl)
      else ([], cs)
  | [] => ([], [])
  end.

Definition starts_with (p : string) (cs : list ascii) : bool :=
  let pc := list_ascii_of_string p in
  bool_decide (take (length pc) cs = pc).

(** The value of an [ExponentPart] at the head of [cs]; an [e] that no
    digit follows is not part of the literal. *)
Definition exponent_part (cs : list ascii) : Z :=
  match cs with
  | c :: rest =>
      if bool_decide (c = "e"%char ∨ c = "E"%char) then
        let '(sign, rest') :=
          match rest with
          | "+"%char :: r => (1, r)
          | "-"%char :: r => (-1, r)
          | _ => (1, rest)
          end in
        sign * digits_value 0 (span_digits rest').1
      else 0
  | [] => 0
  end.

(** The longest prefix that is a [StrUnsignedDecimalLiteral]. *)
Definition unsigned_literal (cs : list ascii) : number :=
  if starts_with "Infinity" cs then Infinity false
  else
    let '(ip, r1) := span_digits cs in
    let '(fp, r2) :=
      match r1 with
      | "."%char :: r => span_digits r
      | _ => ([], r1)
      end in
    if bool_decide (ip = [] ∧ fp = []) then NaN
    else norm (digits_value 0 (ip ++ fp))
              (exponent_part r2 - Z.of_nat (length fp)).

(** [parseFloat(s)].  The literal is read exactly: the program's result is
    this value rounded to binary64, the same value for a whole number up
    to 2^53. *)
Definition parseFloat (s : string) : number :=
  match trim_start (list_ascii_of_string s) with
  | "-"%char :: rest => neg (unsigned_literal rest)
  | "+"%char :: rest => unsigned_literal rest
  | cs => unsigned_literal cs
  end.

(** ** Exact quotients

    Division leaves the decimals.  The program divides only inside
    [Math.ceil((radius / extent) * 15)] and
    [Math.floor(100 - (radius / extent) * 15)], so the value of such an
    expression is kept as an exact rational until [Math.ceil] or
    [Math.floor] brings it back to an integer. *)

Inductive ratio : Type :=
| RNaN
| RInfinity (negative : bool)
| Ratio (q : Q).

Definition toQ (m e : Z) : Q :=
  if 0 <=? e then inject_Z (m * 10 ^ e)
  else Qmake m (Z.to_pos (10 ^ (- e))).

Definition exact (x : number) : ratio :=
  match x with
  | NaN => RNaN
  | Infinity s => RInfinity s
  | Dec m e => Ratio (toQ m e)
  end.

Definition Qneg (q : Q) : bool := Qnum q <? 0.
Definition Qzero (q : Q) : bool := Qnum q =? 0.

(** [x / y] *)
Definition rdiv (x y : ratio) : ratio :=
  match x, y with
  | RNaN, _ | _, RNaN => RNaN
  | RInfinity _, RInfinity _ => RNaN
  | RInfinity s, Ratio q => RInfinity (xorb s (Qneg q))
  | Ratio _, RInfinity _ => Ratio 0%Q
  | Ratio p, Ratio q =>
      if Qzero q then (if Qzero p then RNaN else RInfinity (Qneg p))
      else Ratio (p / q)%Q
  end.

(** [x * y] *)
Definition rmul (x y : ratio) : ratio :=
  match x, y with
  | RNaN, _ | _, RNaN => RNaN
  | RInfinity s1, RInfinity s2 => RInfinity (xorb s1 s2)
  | RInfinity s, Ratio q | Ratio q, RInfinity s =>
      if Qzero q then RNaN else RInfinity (xorb s (Qneg q))
  | Ratio p, Ratio q => Ratio (p * q)%Q
  end.

(** [x - y] *)
Definition rsub (x y : ratio) : ratio :=
  match x, y with
  | RNaN, _ | _, RNaN => RNaN
  | RInfinity s1, RInfinity s2 => if bool_decide (s1 = s2) then RNaN else x
  | RInfinity _, Ratio _ => x
  | Ratio _, RInfinity s => RInfinity (negb s)
  | Ratio p, Ratio q => Ratio (p - q)%Q
  end.

Definition Math_ceil (x : ratio) : number :=
  match x with
  | RNaN => NaN
  | RInfinity s => Infinity s
  | Ratio q => ofZ (Qceiling q)
  end.

Definition Math_floor (x : ratio) : number :=
  match x with
  | RNaN => NaN
  | RInfinity s => Infinity s
  | Ratio q => ofZ (Qfloor q)
  end.

(** ** SVG documents

    The two template literals of the source are kept as element trees; the
    white space between their tags is not reproduced by [serialize]. *)

#[local] Unset Elimination Schemes.
Inductive node : Type :=
| Element (tag : string) (attrs : list (string * string)) (children : list node)
| Text (content : string).
#[local] Set Elimination Schemes.

Definition quote : string := String (ascii_of_nat 34) "".

Definition serialize_attr (a : string * string) : string :=
  " " +:+ a.1 +:+ "=" +:+ quote +:+ a.2 +:+ quote.

Definition concat_strings (l : list string) : string :=
  foldr String.append "" l.

Fixpoint serialize (n : node) : string :=
  match n with
  | Text content => content
  | Element tag attrs children =>
      let open := "<" +:+ tag +:+ concat_strings (serialize_attr <$> attrs) in
      match children with
      | [] => open +:+ " />"
      | _ =>
          open +:+ ">" +:+ concat_strings (map serialize children)
            +:+ "</" +:+ tag +:+ ">"
      end
  end.

Fixpoint assoc (name : string) (l : list (string * string)) : option string :=
  match l with
  | [] => None
  | (k, v) :: rest => if decide (k = name) then Some v else assoc name rest
  end.

(** The value of an attribute of an element. *)
Definition attr (name : string) (n : node) : option string :=
  match n with
  | Element _ attrs _ => assoc name attrs
  | Text _ => None
  end.

Definition tag_of (n : node) : string :=
  match n with
  | Element tag _ _ => tag
  | Text _ => ""
  end.

Definition children_of (n : node) : list node :=
  match n with
  | Element _ _ children => children
  | Text _ => []
  end.

(** An element and everything below it, in document order. *)
Fixpoint descendants (n : node) : list node :=
  n :: match n with
       | Element _ _ children => concat (map descendants children)
       | Text _ => []
       end.

Definition getElementById (id : string) (doc : node) : option node :=
  head (filter (λ n, attr "id" n = Some id) (descendants doc)).

Definition getElementsByTagName (tag : string) (doc : node) : list node :=
  filter (λ n, tag_of n = tag) (descendants doc).

(** ** [encodeURIComponent] *)

Definition uri_unreserved (c : ascii) : bool :=
  let n := N_of_ascii c in
  (((65 <=? n) && (n <=? 90)) || ((97 <=? n) && (n <=? 122))
   || ((48 <=? n) && (n <=? 57))
   || bool_decide (c ∈ list_ascii_of_string "-_.!~*'()"))%N.

Definition hex_char (n : N) : ascii :=
  nth (N.to_nat n) (list_ascii_of_string "0123456789ABCDEF") "0"%char.

Fixpoint encodeURIComponent (s : string) : string :=
  match s with
  | EmptyString => ""
  | String c rest =>
      if uri_unreserved c then String c (encodeURIComponent rest)
      else
        let n := N_of_ascii c in
        String "%" (String (hex_char (n / 16)) (String (hex_char (n mod 16))
          (encodeURIComponent rest)))
  end.

(** ** The displacement map: [_getDisplacementMap] *)

Definition percent (x : number) : string := ToString x +:+ "%".

(** [Math.ceil((radius / extent) * 15)] *)
Definition gradient_start (radius extent : number) : number :=
  Math_ceil (rmul (rdiv (exact radius) (exact extent)) (exact (ofZ 15))).

(** [Math.floor(100 - (radius / extent) * 15)].  The difference is exact
    here.  In binary64 it rounds to 100 once the quotient is smaller than
    half the spacing of the values next to 100, which for the radius 16
    takes an extent beyond 3.3e16; the program then prints 100 where this
    definition gives 99.  Below that the two agree. *)
Definition gradient_end (radius extent : number) : number :=
  Math_floor (rsub (exact (ofZ 100))
                   (rmul (rdiv (exact radius) (exact extent)) (exact (ofZ 15)))).

Definition stop (offset color : string) : node :=
  Element "stop" [("offset", offset); ("stop-color", color)] [].

Definition displacement_map_svg (filterId : string)
    (height width radius depth : number) : node :=
  let box := [("x", "0"); ("y", "0");
              ("height", ToString height); ("width", ToString width)] in
  Element "svg"
    [("height", ToString height); ("width", ToString width);
     ("viewBox", "0 0 " +:+ ToString width +:+ " " +:+ ToString height);
     ("xmlns", "http://www.w3.org/2000/svg")]
    [Element "style" [] [Text ".mix { mix-blend-mode: screen; }"];
     Element "defs" []
       [Element "linearGradient"
          [("id", "Y-" +:+ filterId); ("x1", "0"); ("x2", "0");
           ("y1", percent (gradient_start radius height));
           ("y2", percent (gradient_end radius height))]
          [stop "0%" "#0F0"; stop "100%" "#000"];
        Element "linearGradient"
          [("id", "X-" +:+ filterId);
           ("x1", percent (gradient_start radius width));
           ("x2", percent (gradient_end radius width));
           ("y1", "0"); ("y2", "0")]
          [stop "0%" "#F00"; stop "100%" "#000"]];
     Element "rect" (box ++ [("fill", "#808080")]) [];
     Element "g" [("filter", "blur(2px)")]
       [Element "rect" (box ++ [("fill", "#000080")]) [];
        Element "rect"
          (box ++ [("fill", "url(#Y-" +:+ filterId +:+ ")"); ("class", "mix")]) [];
        Element "rect"
          (box ++ [("fill", "url(#X-" +:+ filterId +:+ ")"); ("class", "mix")]) [];
        Element "rect"
          [("x", ToString depth); ("y", ToString depth);
           ("height", ToString (sub height (mul (ofZ 2) depth)));
           ("width", ToString (sub width (mul (ofZ 2) depth)));
           ("fill", "#808080");
           ("rx", ToString radius); ("ry", ToString radius);
           ("filter", "blur(" +:+ ToString depth +:+ "px)")] []]].

Definition _getDisplacementMap (filterId : string)
    (height width radius depth : number) : string :=
  "data:image/svg+xml;utf8,"
    +:+ encodeURIComponent
          (serialize (displacement_map_svg filterId height width radius depth)).

(** ** The displacement filter: [_getDisplacementFilter] *)

Definition feDisplacementMap (origin : list (string * string)) (scale : number) : node :=
  Element "feDisplacementMap"
    (origin ++ [("in", "SourceGraphic"); ("in2", "displacementMap");
                ("scale", ToString scale);
                ("xChannelSelector", "R"); ("yChannelSelector", "G")]) [].

Definition feColorMatrix (values result : string) : node :=
  Element "feColorMatrix"
    [("type", "matrix"); ("values", values); ("result", result)] [].

Definition displacement_filter_svg (filterId : string)
    (height width radius depth strength chromaticAberration : number) : node :=
  Element "svg"
    [("height", ToString height); ("width", ToString width);
     ("viewBox", "0 0 " +:+ ToString width +:+ " " +:+ ToString height);
     ("xmlns", "http://www.w3.org/2000/svg")]
    [Element "defs" []
       [Element "filter"
          [("id", "displace-" +:+ filterId);
           ("color-interpolation-filters", "sRGB")]
          [Element "feImage"
             [("x", "0"); ("y", "0");
              ("height", ToString height); ("width", ToString width);
              ("href", _getDisplacementMap filterId height width radius depth);
              ("result", "displacementMap")] [];
           feDisplacementMap [("transform-origin", "center")]
             (add strength (mul chromaticAberration (ofZ 2)));
           feColorMatrix "1 0 0 0 0 0 0 0 0 0 0 0 0 0 0 0 0 0 1 0" "displacedR";
           feDisplacementMap [] (add strength chromaticAberration);
           feColorMatrix "0 0 0 0 0 0 1 0 0 0 0 0 0 0 0 0 0 0 1 0" "displacedG";
           feDisplacementMap [] strength;
           feColorMatrix "0 0 0 0 0 0 0 0 0 0 0 0 1 0 0 0 0 0 1 0" "displacedB";
           Element "feBlend"
             [("in", "displacedR"); ("in2", "displacedG"); ("mode", "screen")] [];
           Element "feBlend" [("in2", "displacedB"); ("mode", "screen")] []]]].

Definition _getDisplacementFilter (filterId : string)
    (height width radius depth strength chromaticAberration : number) : string :=
  "data:image/svg+xml;utf8,"
    +:+ encodeURIComponent
          (serialize (displacement_filter_svg filterId height width radius depth
                        strength chromaticAberration))
    +:+ "#displace-" +:+ filterId.

(** ** Reading a filter

    The dataflow a [filter] element denotes: every primitive reads the
    result named by its [in] / [in2] attribute, or the result of the
    primitive before it when [in] is absent, and the last primitive's result
    is the filter's output.  Images stay symbolic. *)











(** ** The element and its update cycle *)

(** What an update cycle reads from the DOM: the bounding box and the
    attributes of the host element. *)
Record host := {
  rect_width : number;
  rect_height : number;
  attributes : gmap string string
}.

Definition getAttribute (h : host) (name : string) : option string :=
  attributes h !! name.

Definition hasAttribute (h : host) (name : string) : bool :=
  bool_decide (is_Some (attributes h !! name)).

(** [this._prev]: both fields are undefined in the initial [{}]. *)
Record prev := { key : option string; blur : option number }.

Record LiquidGlass := {
  _prev : prev;
  _advSupported : bool;
  _filterId : string
}.

(** Calls on [this.style]. *)
Inductive style_op : Type :=
| setProperty (name value : string)
| removeProperty (name : string).

Definition _getNumberAttribute (h : host) (name : string)
    (defaultValue : number) : number :=
  match getAttribute h name with
  | Some value =>
      if decide (value = "") then defaultValue else parseFloat value
  | None => defaultValue
  end.

Definition _isInteractive (h : host) : bool :=
  (hasAttribute h "href" || hasAttribute h "interactive")
  && negb (hasAttribute h "disabled").

(** [this._prev.blur !== blur] *)
Definition blur_changed (p : prev) (b : number) : bool :=
  match blur p with
  | Some b0 => negb (strict_eq b0 b)
  | None => true
  end.

(** [this._prev.key === key] *)
Definition key_unchanged (p : prev) (k : string) : bool :=
  bool_decide (key p = Some k).

(** The template literal of the cache key. *)
Definition cache_key (width height depth strength chromaticAberration : number)
    : string :=
  ToString width +:+ "x" +:+ ToString height +:+ ":" +:+ ToString depth
    +:+ ":" +:+ ToString strength +:+ ":" +:+ ToString chromaticAberration.

Definition _updateFilter (force : bool) (h : host) (this : LiquidGlass)
    : LiquidGlass * list style_op :=
  if falsy (rect_width h) || falsy (rect_height h) then (this, [])
  else
    let height := Math_round (rect_height h) in
    let width := Math_round (rect_width h) in
    let radius := ofZ 16 in
    let depth := _getNumberAttribute h "depth" (ofZ 10) in
    let strength := _getNumberAttribute h "strength" (ofZ 100) in
    let chromaticAberration := _getNumberAttribute h "chromatic" (ofZ 0) in
    let blur := _getNumberAttribute h "blur" (ofZ 2) in
    let w1 :=
      if blur_changed (_prev this) blur
      then [setProperty "--lg-blur" (ToString blur +:+ "px")] else [] in
    let w2 :=
      if _isInteractive h
      then [setProperty "--lg-opacity" "0.85"; setProperty "--lg-scale" "1"]
      else [removeProperty "--lg-opacity"; removeProperty "--lg-scale"] in
    let key := cache_key width height depth strength chromaticAberration in
    if negb force && key_unchanged (_prev this) key
    then (this, w1 ++ w2)
    else
      let this' := {| _prev := {| key := Some key; blur := Some blur |};
                      _advSupported := _advSupported this;
                      _filterId := _filterId this |} in
      if _advSupported this
         && (gt strength (ofZ 0) || gt chromaticAberration (ofZ 0))
      then
        let filterUrl :=
          _getDisplacementFilter (_filterId this) height width radius depth
            strength chromaticAberration in
        (this', w1 ++ w2 ++ [setProperty "--lg-filter" ("url('" +:+ filterUrl +:+ "')")])
      else
        (this', w1 ++ w2 ++ [setProperty "--lg-filter" "none"]).

(** A run of update cycles, each with its own view of the DOM; the style
    calls of all cycles in order. *)
Fixpoint update_cycles (cycles : list (bool * host)) (this : LiquidGlass)
    : LiquidGlass * list (list style_op) :=
  match cycles with
  | [] => (this, [])
  | (force, h) :: rest =>
      let '(this1, ops) := _updateFilter force h this in
      let '(this2, opss) := update_cycles rest this1 in
      (this2, ops :: opss)
  end.

(** The value a property holds after a list of style calls. *)
Definition apply_op (style : gmap string string) (op : style_op)
    : gmap string string :=
  match op with
  | setProperty name value => <[name := value]> style
  | removeProperty name => delete name style
  end.

Definition publish (style : gmap string string) (ops : list style_op)
    : gmap string string :=
  foldl apply_op style ops.

Definition writes_to (name : string) (ops : list style_op) : list string :=
  omap (λ op, match op with
              | setProperty n v => if decide (n = name) then Some v else None
              | removeProperty _ => None
              end) ops.

(** ** Frame coalescing

    The resize observer's callback and the animation-frame callback it
    schedules (lines 63-70), as far as they decide when [_updateFilter]
    runs.  [scheduled] counts the callbacks handed to
    [requestAnimationFrame] and not yet run. *)

Record scheduler := { _pending : bool; scheduled : nat }.

Inductive signal : Type :=
| Resize
| AnimationFrame.

#[global] Instance signal_eq_dec : EqDecision signal.
Proof. solve_decision. Defined.

(** One run of the animation-frame callback. *)
Definition frame_callback (s : scheduler) : scheduler :=
  {| _pending := false; scheduled := scheduled s |}.

(** What a signal does to the flag and the queue, and how many times it
    calls [_updateFilter]: the observer's callback never calls it, a frame
    calls it once for every callback it runs. *)
Definition dispatch (s : scheduler) (sg : signal) : scheduler * nat :=
  match sg with
  | Resize =>
      if _pending s then (s, 0%nat)
      else ({| _pending := true; scheduled := S (scheduled s) |}, 0%nat)
  | AnimationFrame =>
      (Nat.iter (scheduled s) frame_callback
         {| _pending := _pending s; scheduled := 0 |},
       scheduled s)
  end.

(** ** The capability probe *)

(** What [CSS.supports('backdrop-filter', 'url(#x)')] does when called. *)
Inductive outcome : Type :=
| Returns (supported : bool)
| Throws.

Definition _supportsAdvancedFilters (css_supports : outcome) : bool :=
  match css_supports with
  | Returns supported => supported
  | Throws => false
  end.

(** The static [LiquidGlass._advSupported], undefined until the first
    construction, and the number of probes run so far. *)
Record class_state := { static_advSupported : option bool; probes : nat }.

Definition constructor (css_supports : outcome) (filterId : string)
    (cls : class_state) : class_state * LiquidGlass :=
  let cls' :=
    match static_advSupported cls with
    | None =>
        {| static_advSupported := Some (_supportsAdvancedFilters css_supports);
           probes := S (probes cls) |}
    | Some _ => cls
    end in
  (cls',
   {| _prev := {| key := None; blur := None |};
      _advSupported := default false (static_advSupported cls');
      _filterId := filterId |}).

(** Constructing one instance after another; every construction sees its
    own environment and draws its own identifier. *)
Fixpoint construct_all (envs : list (outcome * string)) (cls : class_state)
    : class_state * list LiquidGlass :=
  match envs with
  | [] => (cls, [])
  | (css_supports, filterId) :: rest =>
      let '(cls1, this) := constructor css_supports filterId cls in
      let '(cls2, others) := construct_all rest cls1 in
      (cls2, this :: others)
  end.

(** ** Notions used in the statements *)

(** The layout [positive_chars] picks, and how to tell it from the
    printed characters. *)
Definition layout (m e : Z) : nat :=
  let k := Z.of_nat (length (digits m)) in
  let n := e + k in
  if (k <=? n) && (n <=? 21) then 1%nat
  else if (0 <? n) && (n <=? 21) then 2%nat
  else if (-6 <? n) && (n <=? 0) then 3%nat
  else 4%nat.

Definition shape (cs : list ascii) : nat :=
  if bool_decide ("e"%char ∈ cs) then 4%nat
  else if bool_decide ("."%char ∈ cs) then
    (if bool_decide (head cs = Some "0"%char) then 3%nat else 2%nat)
  else 1%nat.

(** The digits of a mantissa in exponent notation. *)
Definition mantissa_chars (ds : list ascii) : list ascii :=
  match ds with
  | [d] => [d]
  | d :: rest => d :: "."%char :: rest
  | [] => []
  end.

(** [x <= y] *)
Definition le (x y : number) : bool :=
  match x, y with
  | NaN, _ | _, NaN => false
  | _, _ => negb (gt x y)
  end.

(** The characters a printed number is made of. *)
Definition numeric (c : ascii) : Prop :=
  digit c ∨ c ∈ list_ascii_of_string ".e+-InfityNa".

Definition canonical_tuple
    (t : number * number * number * number * number) : Prop :=
  let '(width, height, depth, strength, chromaticAberration) := t in
  canonical width ∧ canonical height ∧ canonical depth
  ∧ canonical strength ∧ canonical chromaticAberration.

Definition tuple_key (t : number * number * number * number * number)
    : string :=
  let '(width, height, depth, strength, chromaticAberration) := t in
  cache_key width height depth strength chromaticAberration.

(** The five values an update cycle builds its cache key from. *)
Definition regeneration_tuple (h : host)
    : number * number * number * number * number :=
  (Math_round (rect_width h), Math_round (rect_height h),
   _getNumberAttribute h "depth" (ofZ 10),
   _getNumberAttribute h "strength" (ofZ 100),
   _getNumberAttribute h "chromatic" (ofZ 0)).

Definition current_key (h : host) : string :=
  let '(width, height, depth, strength, chromaticAberration) :=
    regeneration_tuple h in
  cache_key width height depth strength chromaticAberration.

(** The filter reference a regeneration publishes for [h]. *)
Definition filter_reference (h : host) (this : LiquidGlass) : string :=
  let '(width, height, depth, strength, chromaticAberration) :=
    regeneration_tuple h in
  if _advSupported this
     && (gt strength (ofZ 0) || gt chromaticAberration (ofZ 0))
  then "url('" +:+ _getDisplacementFilter (_filterId this) height width
                     (ofZ 16) depth strength chromaticAberration +:+ "')"
  else "none".

(** The calls of a cycle before the cache check. *)
Definition blur_calls (h : host) (this : LiquidGlass) : list style_op :=
  let blur := _getNumberAttribute h "blur" (ofZ 2) in
  if blur_changed (_prev this) blur
  then [setProperty "--lg-blur" (ToString blur +:+ "px")] else [].

Definition interactive_calls (h : host) : list style_op :=
  if _isInteractive h
  then [setProperty "--lg-opacity" "0.85"; setProperty "--lg-scale" "1"]
  else [removeProperty "--lg-opacity"; removeProperty "--lg-scale"].

(** The instance after a regeneration for [h]. *)
Definition stored (h : host) (this : LiquidGlass) : LiquidGlass :=
  {| _prev := {| key := Some (current_key h);
                 blur := Some (_getNumberAttribute h "blur" (ofZ 2)) |};
     _advSupported := _advSupported this;
     _filterId := _filterId this |}.

Definition measurable (h : host) : bool :=
  negb (falsy (rect_width h) || falsy (rect_height h)).

(** A cycle regenerates when it publishes a filter reference. *)
Definition regenerates (force : bool) (h : host) (this : LiquidGlass) : Prop :=
  writes_to "--lg-filter" (_updateFilter force h this).2 ≠ [].

(** The stored key, when there is one, is the key of the tuple whose filter
    reference the style holds. *)
Definition coherent (this : LiquidGlass) (style : gmap string string) : Prop :=
  match key (_prev this) with
  | None => True
  | Some k =>
      ∃ h0, k = current_key h0
            ∧ style !! "--lg-filter" = Some (filter_reference h0 this)
  end.

Definition initial : LiquidGlass :=
  {| _prev := {| key := None; blur := None |};
     _advSupported := true;
     _filterId := "lg-0" |}.

Definition box (width height : number) (attrs : list (string * string)) : host :=
  {| rect_width := width; rect_height := height;
     attributes := list_to_map attrs |}.

Definition idle : scheduler := {| _pending := false; scheduled := 0 |}.

Definition fresh_class : class_state :=
  {| static_advSupported := None; probes := 0 |}.

(** What may follow the digits of a whole number in an attribute value
    without changing what [parseFloat] reads: nothing, or text that starts
    with neither a digit, a decimal point nor an exponent letter. *)
Definition unit_suffix (cs : list ascii) : Prop :=
  match cs with
  | [] => True
  | c :: _ =>
      is_digit c = false ∧ c ≠ "."%char ∧ c ≠ "e"%char ∧ c ≠ "E"%char
  end.

(** Every string a document is built from: tags, attribute names and
    values, text. *)
Fixpoint node_texts (n : node) : list string :=
  match n with
  | Text content => [content]
  | Element tag attrs children =>
      tag :: concat (map (λ a : string * string, [a.1; a.2]) attrs)
        ++ concat (map node_texts children)
  end.

(** ** The surface, the listeners and the element's callbacks

    The part of the element that [_updateFilter] does not touch: the inner
    surface element that [_syncSurface] keeps in step with the host's
    attributes, the event listeners, and the lifecycle callbacks that tie
    everything together. *)

(** The element in the shadow root that carries the content: its tag name,
    its attributes (reflected properties such as [href], [target], [rel]
    and [tabIndex] included), its children, and whether [_onClick] listens
    to its clicks. *)
Record surface := {
  tagName : string;
  surface_attributes : gmap string string;
  childNodes : list node;
  click_listener : bool
}.

(** The whole element: the host's attributes and box, the event types the
    host listens to, the surface, the fields of [_updateFilter], the
    [_pending] flag with the frame callbacks, and [_resizeObserver], null
    or an observer together with whether it observes the host. *)
Record component := {
  dom : host;
  listeners : gset string;
  _surface : surface;
  glass : LiquidGlass;
  timing : scheduler;
  _resizeObserver : option bool;
  isConnected : bool
}.

Definition with_dom (h : host) (c : component) : component :=
  {| dom := h; listeners := listeners c; _surface := _surface c;
     glass := glass c; timing := timing c;
     _resizeObserver := _resizeObserver c; isConnected := isConnected c |}.

Definition with_listeners (l : gset string) (c : component) : component :=
  {| dom := dom c; listeners := l; _surface := _surface c;
     glass := glass c; timing := timing c;
     _resizeObserver := _resizeObserver c; isConnected := isConnected c |}.

Definition with_surface (s : surface) (c : component) : component :=
  {| dom := dom c; listeners := listeners c; _surface := s;
     glass := glass c; timing := timing c;
     _resizeObserver := _resizeObserver c; isConnected := isConnected c |}.

Definition with_glass (g : LiquidGlass) (c : component) : component :=
  {| dom := dom c; listeners := listeners c; _surface := _surface c;
     glass := g; timing := timing c;
     _resizeObserver := _resizeObserver c; isConnected := isConnected c |}.

Definition with_timing (t : scheduler) (c : component) : component :=
  {| dom := dom c; listeners := listeners c; _surface := _surface c;
     glass := glass c; timing := t;
     _resizeObserver := _resizeObserver c; isConnected := isConnected c |}.

Definition with_observer (o : option bool) (c : component) : component :=
  {| dom := dom c; listeners := listeners c; _surface := _surface c;
     glass := glass c; timing := timing c;
     _resizeObserver := o; isConnected := isConnected c |}.

Definition with_connected (b : bool) (c : component) : component :=
  {| dom := dom c; listeners := listeners c; _surface := _surface c;
     glass := glass c; timing := timing c;
     _resizeObserver := _resizeObserver c; isConnected := b |}.

(** Attribute writes on the host. *)
Definition setAttribute (name value : string) (h : host) : host :=
  {| rect_width := rect_width h; rect_height := rect_height h;
     attributes := <[name := value]> (attributes h) |}.

Definition removeAttribute (name : string) (h : host) : host :=
  {| rect_width := rect_width h; rect_height := rect_height h;
     attributes := delete name (attributes h) |}.

(** [toggleAttribute(name, force)] *)
Definition toggleAttribute (name : string) (force : bool) (h : host) : host :=
  if force then (if hasAttribute h name then h else setAttribute name "" h)
  else removeAttribute name h.

(** Attribute writes on the surface. *)
Definition surface_set (name value : string) (s : surface) : surface :=
  {| tagName := tagName s;
     surface_attributes := <[name := value]> (surface_attributes s);
     childNodes := childNodes s; click_listener := click_listener s |}.

Definition surface_listen (on : bool) (s : surface) : surface :=
  {| tagName := tagName s; surface_attributes := surface_attributes s;
     childNodes := childNodes s; click_listener := on |}.

Definition upper_case (c : ascii) : ascii :=
  let n := N_of_ascii c in
  if ((97 <=? n) && (n <=? 122))%N then ascii_of_N (n - 32) else c.

Fixpoint to_upper (s : string) : string :=
  match s with
  | EmptyString => EmptyString
  | String c rest => String (upper_case c) (to_upper rest)
  end.

(** [document.createElement(localName)] *)
Definition createElement (localName : string) : surface :=
  {| tagName := to_upper localName; surface_attributes := ∅;
     childNodes := []; click_listener := false |}.

(** [a || b] on an attribute value and a string. *)
Definition or_else (a : option string) (b : string) : string :=
  match a with
  | Some s => if decide (s = "") then b else s
  | None => b
  end.

(** The truth value of an attribute value: null and the empty string are
    falsy. *)
Definition truthy (a : option string) : bool :=
  match a with
  | Some s => negb (bool_decide (s = ""))
  | None => false
  end.

(** [_moveSlot]: the first [slot] of the shadow root, as a list. *)
Definition _moveSlot (c : component) : list node :=
  option_list
    (head (filter (λ n, tag_of n = "slot")
             (concat (map descendants (childNodes (_surface c)))))).

(** The two branches of [_syncSurface] that swap the surface for a new
    element of the other kind. *)
Definition swap_surface (localName : string) (c : component) : component :=
  let a := createElement localName in
  let a := surface_set "class" "surface" a in
  let a := surface_set "part" "surface" a in
  let a := {| tagName := tagName a; surface_attributes := surface_attributes a;
              childNodes := childNodes a ++ _moveSlot c;
              click_listener := click_listener a |} in
  with_surface (surface_listen true a) c.

Definition on_surface (f : surface → surface) (c : component) : component :=
  with_surface (f (_surface c)) c.

Definition on_host (f : host → host) (c : component) : component :=
  with_dom (f (dom c)) c.

(** [_syncSurface], block by block: the swap of the surface for one of the
    right kind, the attributes every surface gets, and the two branches for
    a link and for a plain container. *)
Definition sync_kind (c : component) : component :=
  let needsAnchor := hasAttribute (dom c) "href" in
  let isAnchor := bool_decide (tagName (_surface c) = "A") in
  if needsAnchor && negb isAnchor then swap_surface "a" c
  else if negb needsAnchor && isAnchor then swap_surface "div" c
  else c.

Definition sync_common (c : component) : component :=
  let c := on_surface (surface_set "tabindex" "-1") c in
  let c :=
    on_host (toggleAttribute "disabled" (hasAttribute (dom c) "disabled")) c in
  on_surface
    (surface_set "aria-disabled"
       (if hasAttribute (dom c) "disabled" then "true" else "false")) c.

Definition link_rel (h : host) : string :=
  or_else (getAttribute h "rel")
    (if decide (getAttribute h "target" = Some "_blank")
     then "noopener noreferrer" else "").

Definition sync_link (c : component) : component :=
  let c :=
    on_surface (surface_set "href" (or_else (getAttribute (dom c) "href") "")) c in
  let t := getAttribute (dom c) "target" in
  let c := if truthy t then on_surface (surface_set "target" (default "" t)) c
           else c in
  let rel := link_rel (dom c) in
  let c := if decide (rel = "") then c
           else on_surface (surface_set "rel" rel) c in
  let c :=
    match getAttribute (dom c) "download" with
    | Some dl =>
        on_surface (surface_set "download" (if decide (dl = "") then "" else dl)) c
    | None => c
    end in
  let c := if hasAttribute (dom c) "tabindex" then c
           else on_host (setAttribute "tabindex" "0") c in
  on_host (removeAttribute "role") c.

Definition sync_plain (c : component) : component :=
  let interactive := hasAttribute (dom c) "interactive" in
  if interactive then
    let c := on_host (setAttribute "role" "button") c in
    if hasAttribute (dom c) "tabindex" then c
    else on_host (setAttribute "tabindex" "0") c
  else
    let c := on_host (removeAttribute "role") c in
    if hasAttribute (dom c) "tabindex" then c
    else on_host (removeAttribute "tabindex") c.

Definition _syncSurface (c : component) : component :=
  let needsAnchor := hasAttribute (dom c) "href" in
  let c := sync_common (sync_kind c) in
  if needsAnchor then sync_link c else sync_plain c.

(** The fields [_syncSurface] has no business with. *)
Definition elsewhere (c : component) :=
  (listeners c, glass c, timing c, _resizeObserver c, isConnected c).

(** What [_syncSurface] establishes: the surface is an anchor exactly for a
    host with [href]; it is out of the tab order and mirrors [disabled]; a
    link surface carries the host's [href], its non-empty [target], its
    [rel] or the default for a new window, and its [download], and the host
    is focusable without a role; a plain interactive host is a focusable
    button, any other plain host has no role. *)
Definition synced (c : component) : Prop :=
  let h := dom c in
  let A := surface_attributes (_surface c) in
  bool_decide (tagName (_surface c) = "A") = hasAttribute h "href"
  ∧ A !! "tabindex" = Some "-1"
  ∧ A !! "aria-disabled"
    = Some (if hasAttribute h "disabled" then "true" else "false")
  ∧ (hasAttribute h "href" = true →
       A !! "href" = Some (or_else (getAttribute h "href") "")
       ∧ (truthy (getAttribute h "target") = true →
            A !! "target" = getAttribute h "target")
       ∧ (link_rel h ≠ "" → A !! "rel" = Some (link_rel h))
       ∧ (∀ dl, getAttribute h "download" = Some dl →
            A !! "download" = Some dl)
       ∧ hasAttribute h "tabindex" = true
       ∧ getAttribute h "role" = None)
  ∧ (hasAttribute h "href" = false →
       if hasAttribute h "interactive"
       then getAttribute h "role" = Some "button"
            ∧ hasAttribute h "tabindex" = true
       else getAttribute h "role" = None).

(** What a handler does to its event and to the elements. *)
Inductive action : Type :=
| preventDefault
| stopPropagation
| dispatch_click_on_host
| dispatch_click_on_surface
| surface_click.

(** [_onClick(ev)], given whether [ev.target] is the host. *)
Definition _onClick (target_is_host : bool) (c : component) : list action :=
  if hasAttribute (dom c) "disabled" then [preventDefault; stopPropagation]
  else if negb target_is_host then [dispatch_click_on_host]
  else [].

(** [_onKeyDown(ev)], given [ev.key]. *)
Definition _onKeyDown (key : string) (c : component) : list action :=
  if hasAttribute (dom c) "disabled" then []
  else
    (if negb (hasAttribute (dom c) "href") && hasAttribute (dom c) "interactive"
     then
       if bool_decide (key = "Enter" ∨ key = " ")
       then [preventDefault; dispatch_click_on_surface] else []
     else [])
    ++ (if hasAttribute (dom c) "href" && bool_decide (key = "Enter")
        then [preventDefault; surface_click] else []).

Definition _removeInteractionListeners (c : component) : component :=
  with_listeners (listeners c ∖ {["mouseenter"]} ∖ {["mouseleave"]}) c.

Definition _setupInteractionListeners (c : component) : component :=
  let c := _removeInteractionListeners c in
  if _isInteractive (dom c)
  then with_listeners (listeners c ∪ {["mouseenter"]} ∪ {["mouseleave"]}) c
  else c.

Definition _onMouseEnter (c : component) : list style_op :=
  if negb (_isInteractive (dom c)) then []
  else [setProperty "--lg-opacity" "1"; setProperty "--lg-scale" "1.02"].

Definition _onMouseLeave (c : component) : list style_op :=
  if negb (_isInteractive (dom c)) then []
  else [setProperty "--lg-opacity" "0.85"; setProperty "--lg-scale" "1"].

Definition observedAttributes : list string :=
  ["href"; "target"; "rel"; "download"; "interactive"; "disabled";
   "strength"; "depth"; "blur"; "chromatic"].

(** [this._updateFilter()] on the whole element. *)
Definition update (c : component) : component * list style_op :=
  let '(g, ops) := _updateFilter false (dom c) (glass c) in
  (with_glass g c, ops).

(** [connectedCallback], given whether [window.ResizeObserver] exists. *)
Definition connectedCallback (has_ResizeObserver : bool) (c : component)
    : component * list style_op :=
  let c := _syncSurface c in
  let c := with_listeners (listeners c ∪ {["keydown"]}) c in
  let c := on_surface (surface_listen true) c in
  let c := _setupInteractionListeners c in
  let c := if has_ResizeObserver then with_observer (Some true) c else c in
  update c.

Definition disconnectedCallback (c : component) : component :=
  let c := with_listeners (listeners c ∖ {["keydown"]}) c in
  let c := on_surface (surface_listen false) c in
  let c := _removeInteractionListeners c in
  match _resizeObserver c with
  | Some _ => with_observer (Some false) c
  | None => c
  end.

Definition attributeChangedCallback (name : string) (c : component)
    : component * list style_op :=
  let c := _syncSurface c in
  let '(c, ops) :=
    if bool_decide (name ∈ ["strength"; "depth"; "blur"; "chromatic"])
    then update c else (c, []) in
  let c :=
    if bool_decide (name ∈ ["href"; "interactive"; "disabled"])
    then _setupInteractionListeners c else c in
  (c, ops).

(** The callback the resize observer runs, and the frame that runs what it
    scheduled. *)
Definition resize_callback (c : component) : component :=
  with_timing (dispatch (timing c) Resize).1 c.

Fixpoint updates (n : nat) (c : component) : component * list style_op :=
  match n with
  | O => (c, [])
  | S n' =>
      let '(c1, ops1) := update c in
      let '(c2, ops2) := updates n' c1 in
      (c2, ops1 ++ ops2)
  end.

Definition animation_frame (c : component) : component * list style_op :=
  let '(t, n) := dispatch (timing c) AnimationFrame in
  updates n (with_timing t c).

(** What happens to the element from outside. *)
Inductive event : Type :=
| Connect
| Disconnect
| SetAttribute (name value : string)
| RemoveAttribute (name : string)
| Reflow (width height : number)
| ResizeNotification
| Frame.

#[global] Instance event_eq_dec : EqDecision event.
Proof. solve_decision. Defined.

Definition react (has_ResizeObserver : bool) (c : component) (ev : event)
    : component * list style_op :=
  match ev with
  | Connect => connectedCallback has_ResizeObserver (with_connected true c)
  | Disconnect => (disconnectedCallback (with_connected false c), [])
  | SetAttribute name value =>
      let c := on_host (setAttribute name value) c in
      if bool_decide (name ∈ observedAttributes)
      then attributeChangedCallback name c else (c, [])
  | RemoveAttribute name =>
      if hasAttribute (dom c) name then
        let c := on_host (removeAttribute name) c in
        if bool_decide (name ∈ observedAttributes)
        then attributeChangedCallback name c else (c, [])
      else (c, [])
  | Reflow width height =>
      (on_host (λ h, {| rect_width := width; rect_height := height;
                        attributes := attributes h |}) c, [])
  | ResizeNotification =>
      if bool_decide (_resizeObserver c = Some true)
      then (resize_callback c, []) else (c, [])
  | Frame => animation_frame c
  end.

Fixpoint react_all (has_ResizeObserver : bool) (c : component)
    (evs : list event) : component * list style_op :=
  match evs with
  | [] => (c, [])
  | ev :: rest =>
      let '(c1, ops1) := react has_ResizeObserver c ev in
      let '(c2, ops2) := react_all has_ResizeObserver c1 rest in
      (c2, ops1 ++ ops2)
  end.

(** The element as its constructor leaves it: a [div] surface around the
    slot, no listener, nothing scheduled, no observer. *)
Definition constructed (g : LiquidGlass) (h : host) : component :=
  {| dom := h; listeners := ∅;
     _surface := {| tagName := "DIV";
                    surface_attributes :=
                      {[ "class" := "surface"; "part" := "surface" ]};
                    childNodes := [Element "slot" [] []];
                    click_listener := false |};
     glass := g; timing := idle; _resizeObserver := None;
     isConnected := false |}.

(** Two states of the element that differ in nothing but the fields of
    [_updateFilter] and the scheduling. *)
Definition same_wiring (c1 c2 : component) : Prop :=
  dom c1 = dom c2 ∧ listeners c1 = listeners c2 ∧ _surface c1 = _surface c2
  ∧ _resizeObserver c1 = _resizeObserver c2 ∧ isConnected c1 = isConnected c2.

(** An element wired as [connectedCallback] leaves it: the host listens to
    [keydown], the surface forwards clicks, the hover listeners are there
    exactly for an interactive element, and the resize observer, where the
    platform has one, observes the host. *)
Definition wired (has_ResizeObserver : bool) (c : component) : Prop :=
  "keydown" ∈ listeners c
  ∧ click_listener (_surface c) = true
  ∧ (∀ type, type ∈ ["mouseenter"; "mouseleave"] →
       type ∈ listeners c ↔ _isInteractive (dom c) = true)
  ∧ (has_ResizeObserver = true → _resizeObserver c = Some true).

(** The events that reach the element's callbacks: every event but a
    write to an attribute that is not observed. *)
Definition observed_event (ev : event) : Prop :=
  match ev with
  | SetAttribute name _ | RemoveAttribute name => name ∈ observedAttributes
  | _ => True
  end.

(** The events that may reach a connected element between two frames. *)
Definition between_frames (ev : event) : Prop :=
  match ev with
  | SetAttribute _ _ | RemoveAttribute _ | Reflow _ _ | ResizeNotification =>
      True
  | Connect | Disconnect | Frame => False
  end.

(** * Properties *)

(** ** The number model on a few inputs *)

Example ToString_layouts :
  ToString <$> [Dec 15 (-1); Dec 1 21; Dec 1 20; Dec 123 (-8); Dec 123 (-9);
                Dec (-12345) (-2); NaN; Infinity true; ofZ 0; ofZ 1000]
  = ["1.5"; "1e+21"; "100000000000000000000"; "0.00000123"; "1.23e-7";
     "-123.45"; "NaN"; "-Infinity"; "0"; "1000"].
Proof. vm_compute. reflexivity. Qed.

Example parseFloat_prefixes :
  parseFloat <$> ["10"; "  1.50e2px"; "-.5"; "5."; "1e"; "-Infinityx";
                  "abc"; "."; "- 5"; ""]
  = [ofZ 10; ofZ 150; Dec (-5) (-1); ofZ 5; ofZ 1; Infinity true;
     NaN; NaN; NaN; NaN].
Proof. vm_compute. reflexivity. Qed.

(** White space of more than one byte is skipped; U+200B is no white
    space. *)
Example parseFloat_white_space :
  parseFloat
    <$> [String "009" "7";
         String "194" (String "160" "7");
         String "227" (String "128" (String "128" "7"));
         String "226" (String "128" (String "168" " 7"));
         String "226" (String "128" (String "139" "7"))]
  = [ofZ 7; ofZ 7; ofZ 7; ofZ 7; NaN].
Proof. vm_compute. reflexivity. Qed.

Example Math_round_halves :
  Math_round <$> [Dec 25 (-1); Dec (-25) (-1); Dec 4 (-1); Dec 2004 (-1)]
  = [ofZ 3; ofZ (-2); ofZ 0; ofZ 200].
Proof. vm_compute. reflexivity. Qed.



(** ** Decimal digits *)

Lemma digit_char_value d : 0 ≤ d < 10 → digit_value (digit_char d) = Some d.
Proof.
  intros Hd.
  assert (d = 0 ∨ d = 1 ∨ d = 2 ∨ d = 3 ∨ d = 4 ∨ d = 5 ∨ d = 6 ∨ d = 7
          ∨ d = 8 ∨ d = 9) as Hc by lia.
  repeat (destruct Hc as [-> | Hc]; [done|]). by subst.
Qed.

Lemma digit_char_is_digit d : 0 ≤ d < 10 → is_digit (digit_char d) = true.
Proof. intros Hd. unfold is_digit. by rewrite digit_char_value. Qed.

Lemma digit_char_zero d : 0 ≤ d < 10 → digit_char d = "0"%char → d = 0.
Proof.
  intros Hd Hc. apply digit_char_value in Hd. rewrite Hc in Hd.
  by injection Hd.
Qed.

Lemma digits_fuel_indep f1 f2 n :
  0 ≤ n < 2 ^ (Z.of_nat f1 + 1) → n < 2 ^ (Z.of_nat f2 + 1) →
  digits_fuel f1 n = digits_fuel f2 n.
Proof.
  revert f2 n. induction f1 as [|f1 IH]; intros f2 n H1 H2.
  - assert (n < 10) by (change (2 ^ (Z.of_nat 0 + 1)) with 2 in H1; lia).
    destruct f2; simpl.
    + done.
    + rewrite (proj2 (Z.ltb_lt n 10)) by done. by rewrite Z.mod_small by lia.
  - simpl. destruct (n <? 10) eqn:Hn.
    + apply Z.ltb_lt in Hn. destruct f2; simpl.
      * by rewrite Z.mod_small by lia.
      * by rewrite (proj2 (Z.ltb_lt n 10)).
    + apply Z.ltb_ge in Hn. destruct f2 as [|f2]; simpl.
      * change (2 ^ (Z.of_nat 0 + 1)) with 2 in H2. lia.
      * rewrite (proj2 (Z.ltb_ge n 10)) by done. f_equal.
        assert (∀ f : nat, n < 2 ^ (Z.of_nat (S f) + 1) →
                  n / 10 < 2 ^ (Z.of_nat f + 1)) as Hdiv.
        { intros f Hf. apply Z.div_lt_upper_bound; [lia|].
          replace (Z.of_nat (S f) + 1) with (Z.succ (Z.of_nat f + 1)) in Hf by lia.
          rewrite Z.pow_succ_r in Hf by lia. lia. }
        apply IH; [split|]; [apply Z.div_pos; lia|apply Hdiv; lia|by apply Hdiv].
Qed.

Lemma digits_bound n : 0 ≤ n → n < 2 ^ (Z.of_nat (Z.to_nat (Z.log2 n)) + 1).
Proof.
  intros Hn. rewrite Z2Nat.id by apply Z.log2_nonneg.
  destruct (decide (n = 0)) as [-> | Hz]; [done|].
  replace (Z.log2 n + 1) with (Z.succ (Z.log2 n)) by lia.
  apply Z.log2_spec. lia.
Qed.

Lemma digits_small n : 0 ≤ n < 10 → digits n = [digit_char n].
Proof.
  intros Hn. unfold digits.
  rewrite (digits_fuel_indep _ 3 n); [|split; [lia|apply digits_bound; lia]|].
  - simpl. by rewrite (proj2 (Z.ltb_lt n 10)) by lia.
  - change (2 ^ (Z.of_nat 3 + 1)) with 16. lia.
Qed.

Lemma digits_large n :
  10 ≤ n → digits n = digits (n / 10) ++ [digit_char (n mod 10)].
Proof.
  intros Hn. unfold digits at 1.
  assert (0 ≤ n / 10 < n) as Hq.
  { split; [apply Z.div_pos; lia|apply Z.div_lt; lia]. }
  pose proof (digits_bound n ltac:(lia)) as Hb.
  pose proof (digits_bound (n / 10) ltac:(lia)) as Hb'.
  destruct (Z.to_nat (Z.log2 n)) as [|f] eqn:Hf.
  - change (2 ^ (Z.of_nat 0 + 1)) with 2 in Hb. lia.
  - simpl. rewrite (proj2 (Z.ltb_ge n 10)) by done. f_equal.
    apply digits_fuel_indep; [split; [lia|]|done].
    apply Z.div_lt_upper_bound; [lia|].
    replace (Z.of_nat (S f) + 1) with (Z.succ (Z.of_nat f + 1)) in Hb by lia.
    rewrite Z.pow_succ_r in Hb by lia. lia.
Qed.

(** Induction along the digits of a number. *)
Lemma digits_ind (P : Z → Prop) :
  (∀ n, 0 ≤ n < 10 → P n) →
  (∀ n, 10 ≤ n → P (n / 10) → P n) →
  ∀ n, 0 ≤ n → P n.
Proof.
  intros Hsmall Hlarge n Hn. pattern n. apply Zlt_0_ind; [|done].
  clear n Hn. intros n IH Hn.
  destruct (decide (n < 10)); [apply Hsmall; lia|].
  apply Hlarge; [lia|]. apply IH.
  split; [apply Z.div_pos; lia|apply Z.div_lt; lia].
Qed.

Lemma digits_all_digits n : 0 ≤ n → Forall digit (digits n).
Proof.
  intros Hn. pattern n. apply digits_ind; [| |done]; clear n Hn.
  - intros n Hn. rewrite digits_small by done.
    constructor; [by apply digit_char_is_digit|constructor].
  - intros n Hn IH. rewrite digits_large by done.
    apply Forall_app. split; [done|].
    constructor; [|constructor].
    apply digit_char_is_digit. apply Z.mod_pos_bound. lia.
Qed.

Lemma digits_nonempty n : 0 ≤ n → digits n ≠ [].
Proof.
  intros Hn. destruct (decide (n < 10)).
  - by rewrite digits_small.
  - rewrite digits_large by lia. by intros [? ?]%app_eq_nil.
Qed.

Lemma digits_last n : 0 ≤ n → last (digits n) = Some (digit_char (n mod 10)).
Proof.
  intros Hn. destruct (decide (n < 10)).
  - rewrite digits_small by lia. by rewrite Z.mod_small by lia.
  - rewrite digits_large by lia. apply last_snoc.
Qed.

Lemma digits_head n : 0 < n → head (digits n) ≠ Some "0"%char.
Proof.
  intros Hn. assert (0 ≤ n) as Hn0 by lia. revert Hn.
  pattern n. apply digits_ind; [| |done]; clear n Hn0.
  - intros n Hn Hpos. rewrite digits_small by done. simpl.
    intros [= Hc]. apply digit_char_zero in Hc; lia.
  - intros n Hn IH _. rewrite digits_large by done.
    assert (0 < n / 10) as Hq by (apply Z.div_str_pos; lia).
    specialize (IH Hq).
    destruct (digits (n / 10)) as [|c cs] eqn:Hd; [|done].
    by apply digits_nonempty in Hd; [|lia].
Qed.

Lemma digits_value_snoc acc cs c :
  digits_value acc (cs ++ [c])
  = 10 * digits_value acc cs + default 0 (digit_value c).
Proof. revert acc. induction cs as [|c' cs IH]; intros acc; simpl; [done|apply IH]. Qed.

Lemma digits_value_digits n : 0 ≤ n → digits_value 0 (digits n) = n.
Proof.
  intros Hn. pattern n. apply digits_ind; [| |done]; clear n Hn.
  - intros n Hn. rewrite digits_small by done. simpl.
    rewrite digit_char_value by done. simpl. lia.
  - intros n Hn IH. rewrite digits_large, digits_value_snoc, IH by done.
    rewrite digit_char_value by (apply Z.mod_pos_bound; lia). simpl.
    symmetry. apply Z.div_mod. lia.
Qed.

Lemma digits_inj n n' : 0 ≤ n → 0 ≤ n' → digits n = digits n' → n = n'.
Proof.
  intros Hn Hn' Heq.
  rewrite <- (digits_value_digits n), <- (digits_value_digits n') by done.
  by rewrite Heq.
Qed.

(** ** Number to string is injective *)

Lemma not_digit_not_in c cs : is_digit c = false → Forall digit cs → c ∉ cs.
Proof.
  intros Hc Hcs Hin. rewrite Forall_forall in Hcs.
  apply Hcs in Hin. unfold digit in Hin. congruence.
Qed.

Lemma split_at_separator (c : ascii) l1 l2 l1' l2' :
  c ∉ l1 → c ∉ l1' → l1 ++ c :: l2 = l1' ++ c :: l2' → l1 = l1' ∧ l2 = l2'.
Proof.
  revert l1'. induction l1 as [|x l1 IH]; intros [|x' l1'] H1 H1' Heq;
    simpl in Heq.
  - by injection Heq.
  - injection Heq as <- _. exfalso. apply H1'. left.
  - injection Heq as -> _. exfalso. apply H1. left.
  - injection Heq as <- Heq.
    apply not_elem_of_cons in H1 as [_ H1].
    apply not_elem_of_cons in H1' as [_ H1'].
    destruct (IH l1' H1 H1' Heq) as [-> ->]. done.
Qed.

Lemma zeros_prefix_inj (a a' : nat) (l l' : list ascii) :
  l ≠ [] → head l ≠ Some "0"%char →
  l' ≠ [] → head l' ≠ Some "0"%char →
  replicate a "0"%char ++ l = replicate a' "0"%char ++ l' →
  a = a' ∧ l = l'.
Proof.
  intros Hl Hh Hl' Hh'. revert a'.
  induction a as [|a IH]; intros [|a'] Heq; simpl in Heq.
  - done.
  - subst l. simpl in Hh. done.
  - subst l'. simpl in Hh'. done.
  - injection Heq as Heq. destruct (IH a' Heq) as [-> ->]. done.
Qed.

Lemma zeros_suffix_inj (a a' : nat) (l l' : list ascii) :
  l ≠ [] → last l ≠ Some "0"%char →
  l' ≠ [] → last l' ≠ Some "0"%char →
  l ++ replicate a "0"%char = l' ++ replicate a' "0"%char →
  a = a' ∧ l = l'.
Proof.
  intros Hl Hh Hl' Hh' Heq.
  apply (f_equal reverse) in Heq.
  rewrite !reverse_app, !reverse_replicate in Heq.
  apply zeros_prefix_inj in Heq as [-> Heq].
  - split; [done|]. by apply (inj reverse).
  - intros Hr. apply Hl. by apply (inj reverse).
  - by rewrite head_reverse.
  - intros Hr. apply Hl'. by apply (inj reverse).
  - by rewrite head_reverse.
Qed.

Lemma mantissa_chars_inj ds ds' :
  mantissa_chars ds = mantissa_chars ds' → ds = ds'.
Proof.
  destruct ds as [|d [|r rest]], ds' as [|d' [|r' rest']]; simpl;
    intros Heq; by simplify_eq.
Qed.

Lemma mantissa_chars_no_e ds : Forall digit ds → "e"%char ∉ mantissa_chars ds.
Proof.
  intros Hd. destruct ds as [|d [|r rest]]; simpl.
  - apply not_elem_of_nil.
  - by apply not_digit_not_in.
  - apply Forall_cons in Hd as [Hd Hrest].
    intros [<- | [? | Hin]%elem_of_cons]%elem_of_cons; [done..|].
    by apply not_digit_not_in in Hin.
Qed.

(** The exponent-notation branch, with the mantissa factored out. *)
Lemma exponent_layout ds ex :
  ds ≠ [] →
  match ds with
  | [d] => d :: "e"%char :: ex
  | d :: rest => d :: "."%char :: rest ++ "e"%char :: ex
  | [] => ex
  end = mantissa_chars ds ++ "e"%char :: ex.
Proof. by destruct ds as [|d [|r rest]]. Qed.

Lemma zeros_digits a : Forall digit (zeros a).
Proof. unfold zeros. by apply Forall_replicate. Qed.

Lemma canonical_digits m :
  0 < m → m mod 10 ≠ 0 →
  Forall digit (digits m) ∧ digits m ≠ []
  ∧ head (digits m) ≠ Some "0"%char ∧ last (digits m) ≠ Some "0"%char.
Proof.
  intros Hm Hmod. split_and!.
  - apply digits_all_digits. lia.
  - apply digits_nonempty. lia.
  - by apply digits_head.
  - rewrite digits_last by lia. intros [= Hc].
    apply digit_char_zero in Hc; [done|]. apply Z.mod_pos_bound. lia.
Qed.

Ltac bools :=
  rewrite ?andb_true_iff, ?andb_false_iff, ?Z.leb_le, ?Z.leb_gt, ?Z.ltb_lt,
    ?Z.ltb_ge in *.

Lemma shape_positive_chars m e :
  0 < m → shape (positive_chars m e) = layout m e.
Proof.
  intros Hm.
  pose proof (digits_all_digits m ltac:(lia)) as Hd.
  pose proof (digits_nonempty m ltac:(lia)) as Hne.
  pose proof (digits_head m Hm) as Hh.
  unfold positive_chars, layout, shape.
  set (ds := digits m) in *. set (k := Z.of_nat (length ds)).
  set (n := e + k).
  destruct ((k <=? n) && (n <=? 21)) eqn:H1;
    [|destruct ((0 <? n) && (n <=? 21)) eqn:H2;
      [|destruct ((-6 <? n) && (n <=? 0)) eqn:H3]].
  - assert (Forall digit (ds ++ zeros (n - k))) as Hall
      by (apply Forall_app; split; [done|apply zeros_digits]).
    rewrite !bool_decide_eq_false_2; [done|by apply not_digit_not_in..].
  - bools.
    assert ("e"%char ∉ take (Z.to_nat n) ds ++ "."%char :: drop (Z.to_nat n) ds)
      as He.
    { intros [Hin | [? | Hin]%elem_of_cons]%elem_of_app; [|done|].
      - revert Hin. apply not_digit_not_in; [done|by apply Forall_take].
      - revert Hin. apply not_digit_not_in; [done|by apply Forall_drop]. }
    rewrite (bool_decide_eq_false_2 _ He).
    rewrite bool_decide_eq_true_2
      by (apply elem_of_app; right; left).
    rewrite bool_decide_eq_false_2; [done|].
    destruct ds as [|d ds']; [done|].
    destruct (Z.to_nat n) as [|N] eqn:HN; [lia|]. done.
  - assert ("e"%char ∉ "0"%char :: "."%char :: zeros (- n) ++ ds) as He.
    { intros [? | [? | Hin]%elem_of_cons]%elem_of_cons; [done..|].
      revert Hin. apply not_digit_not_in; [done|].
      apply Forall_app. split; [apply zeros_digits|done]. }
    rewrite (bool_decide_eq_false_2 _ He).
    rewrite bool_decide_eq_true_2 by (right; left). done.
  - rewrite exponent_layout by done.
    rewrite bool_decide_eq_true_2; [done|].
    apply elem_of_app. right. left.
Qed.

Lemma positive_chars_inj m e m' e' :
  0 < m → m mod 10 ≠ 0 → 0 < m' → m' mod 10 ≠ 0 →
  positive_chars m e = positive_chars m' e' → m = m' ∧ e = e'.
Proof.
  intros Hm Hmod Hm' Hmod' Heq.
  assert (layout m e = layout m' e') as Hlay
    by (rewrite <- !shape_positive_chars by done; by rewrite Heq).
  destruct (canonical_digits m Hm Hmod) as (Hd & Hne & Hh & Hl).
  destruct (canonical_digits m' Hm' Hmod') as (Hd' & Hne' & Hh' & Hl').
  assert (digits m = digits m' ∧
          e + Z.of_nat (length (digits m)) = e' + Z.of_nat (length (digits m')))
    as [Hds Hn].
  2: { split; [apply digits_inj; [lia..|done]|]. rewrite Hds in Hn. lia. }
  unfold positive_chars, layout in *.
  set (ds := digits m) in *. set (k := Z.of_nat (length ds)) in *.
  set (n := e + k) in *.
  set (ds' := digits m') in *. set (k' := Z.of_nat (length ds')) in *.
  set (n' := e' + k') in *.
  destruct ((k <=? n) && (n <=? 21)) eqn:H1;
    [|destruct ((0 <? n) && (n <=? 21)) eqn:H2;
      [|destruct ((-6 <? n) && (n <=? 0)) eqn:H3]];
  (destruct ((k' <=? n') && (n' <=? 21)) eqn:H1';
    [|destruct ((0 <? n') && (n' <=? 21)) eqn:H2';
      [|destruct ((-6 <? n') && (n' <=? 0)) eqn:H3']]);
  try discriminate Hlay; bools.
  - apply zeros_suffix_inj in Heq as [Ha Hds]; [|done..].
    split; [done|]. subst k k'. rewrite Hds in *. lia.
  - apply split_at_separator in Heq as [Ht Hdr];
      [|apply not_digit_not_in; [done|by apply Forall_take]..].
    assert (ds = ds') as Hds
      by (rewrite <- (take_drop (Z.to_nat n) ds),
            <- (take_drop (Z.to_nat n') ds'); congruence).
    split; [done|].
    apply (f_equal length) in Ht. rewrite !length_take in Ht.
    subst k k'. lia.
  - injection Heq as Heq.
    apply zeros_prefix_inj in Heq as [Ha Hds]; [|done..].
    split; [done|]. lia.
  - rewrite !exponent_layout in Heq by done.
    apply split_at_separator in Heq as [Hmant Hex];
      [|by apply mantissa_chars_no_e..].
    apply mantissa_chars_inj in Hmant. split; [done|].
    subst k k'. rewrite Hmant in *.
    injection Hex as Hsign Hex. apply digits_inj in Hex; [|lia..].
    destruct (n - 1 <? 0) eqn:Hs, (n' - 1 <? 0) eqn:Hs'; try discriminate Hsign;
      bools; lia.
Qed.

Lemma positive_chars_head m e :
  0 < m → ∃ c rest, positive_chars m e = c :: rest ∧ digit c.
Proof.
  intros Hm.
  pose proof (digits_all_digits m ltac:(lia)) as Hd.
  pose proof (digits_nonempty m ltac:(lia)) as Hne.
  unfold positive_chars. set (ds := digits m) in *.
  set (k := Z.of_nat (length ds)). set (n := e + k).
  destruct ds as [|d ds'] eqn:Hds; [done|].
  apply Forall_cons in Hd as [Hd Hd'].
  destruct ((k <=? n) && (n <=? 21)) eqn:H1;
    [|destruct ((0 <? n) && (n <=? 21)) eqn:H2;
      [|destruct ((-6 <? n) && (n <=? 0)) eqn:H3]].
  - by eexists _, _.
  - bools. destruct (Z.to_nat n) as [|N] eqn:HN; [lia|].
    by eexists _, _.
  - by eexists _, _.
  - destruct ds'; by eexists _, _.
Qed.

Lemma positive_chars_not_zero m e : 0 < m → positive_chars m e ≠ ["0"%char].
Proof.
  intros Hm Heq.
  pose proof (shape_positive_chars m e Hm) as Hshape.
  rewrite Heq in Hshape. change (shape ["0"%char]) with 1%nat in Hshape.
  pose proof (digits_head m Hm) as Hh.
  pose proof (digits_nonempty m ltac:(lia)) as Hne.
  unfold positive_chars, layout in *.
  set (ds := digits m) in *. set (k := Z.of_nat (length ds)) in *.
  set (n := e + k) in *.
  destruct ((k <=? n) && (n <=? 21)) eqn:H1;
    [|destruct ((0 <? n) && (n <=? 21)) eqn:H2;
      [|destruct ((-6 <? n) && (n <=? 0)) eqn:H3]];
    try discriminate Hshape.
  destruct ds as [|d ds']; [done|].
  injection Heq as -> _. done.
Qed.

Lemma opposite_mod m : m mod 10 ≠ 0 → (- m) mod 10 ≠ 0.
Proof. intros H. Z.div_mod_to_equations. lia. Qed.

Lemma number_chars_Dec m e :
  number_chars (Dec m e)
  = if decide (m = 0) then ["0"%char]
    else if m <? 0 then "-"%char :: positive_chars (- m) e
    else positive_chars m e.
Proof. done. Qed.

(** A printed decimal starts with a digit, or with a minus sign and a
    digit. *)
Lemma number_chars_Dec_head m e :
  ∃ c rest, number_chars (Dec m e) = c :: rest
    ∧ (digit c ∨ c = "-"%char ∧ ∃ c' rest', rest = c' :: rest' ∧ digit c').
Proof.
  rewrite number_chars_Dec. case_decide as Hz.
  - eexists _, _. split; [done|]. by left.
  - destruct (m <? 0) eqn:Hneg; bools.
    + destruct (positive_chars_head (- m) e) as (c & rest & Heq & Hc); [lia|].
      rewrite Heq. eexists _, _. split; [done|]. right. split; [done|].
      by eexists _, _.
    + destruct (positive_chars_head m e) as (c & rest & Heq & Hc); [lia|].
      rewrite Heq. eexists _, _. split; [done|]. by left.
Qed.

Lemma literal_not_Dec (s : string) m e :
  s = "NaN" ∨ s = "Infinity" ∨ s = "-Infinity" →
  list_ascii_of_string s ≠ number_chars (Dec m e).
Proof.
  intros Hs Heq.
  destruct (number_chars_Dec_head m e) as (c & rest & Hc & Hhead).
  rewrite Hc in Heq. clear Hc.
  destruct Hs as [-> | [-> | ->]]; injection Heq as <- <-.
  - by destruct Hhead as [Hd | [Hd _]].
  - by destruct Hhead as [Hd | [Hd _]].
  - destruct Hhead as [Hd | [_ (c' & rest' & Hr & Hd)]]; [done|].
    by injection Hr as <- _.
Qed.

Lemma Dec_chars_inj m e m' e' :
  canonical (Dec m e) → canonical (Dec m' e') →
  number_chars (Dec m e) = number_chars (Dec m' e') → Dec m e = Dec m' e'.
Proof.
  assert (∀ m e, 0 < m → ∀ c rest, positive_chars m e = c :: rest → digit c)
    as Hhead.
  { intros a b Ha c rest Heq.
    destruct (positive_chars_head a b Ha) as (c' & rest' & Heq' & Hc).
    congruence. }
  unfold canonical. rewrite !number_chars_Dec.
  destruct (decide (m = 0)) as [-> | Hm], (decide (m' = 0)) as [-> | Hm'].
  - by intros -> ->.
  - intros _ _. destruct (m' <? 0) eqn:Hneg; bools; intros Heq.
    + discriminate Heq.
    + symmetry in Heq. apply positive_chars_not_zero in Heq; [done|lia].
  - intros _ _. destruct (m <? 0) eqn:Hneg; bools; intros Heq.
    + discriminate Heq.
    + apply positive_chars_not_zero in Heq; [done|lia].
  - intros Hmod Hmod'.
    destruct (m <? 0) eqn:Hneg, (m' <? 0) eqn:Hneg'; bools; intros Heq.
    + injection Heq as Heq.
      apply positive_chars_inj in Heq as [? ?];
        [|lia|by apply opposite_mod|lia|by apply opposite_mod].
      f_equal; lia.
    + symmetry in Heq. apply Hhead in Heq; [done|lia].
    + apply Hhead in Heq; [done|lia].
    + apply positive_chars_inj in Heq as [? ?]; [|lia|done|lia|done].
      by f_equal.
Qed.

Lemma number_chars_inj x y :
  canonical x → canonical y → number_chars x = number_chars y → x = y.
Proof.
  intros Hx Hy.
  destruct x as [|[]|m e], y as [|[]|m' e'];
    try (intros Heq; discriminate Heq); try done.
  all: try (intros Heq; exfalso; revert Heq; apply literal_not_Dec; auto).
  all: try (intros Heq; exfalso; symmetry in Heq; revert Heq;
            apply literal_not_Dec; auto).
  by apply Dec_chars_inj.
Qed.

Lemma ToString_chars x : list_ascii_of_string (ToString x) = number_chars x.
Proof. apply list_ascii_of_string_of_list_ascii. Qed.

Lemma ToString_inj x y :
  canonical x → canonical y → ToString x = ToString y → x = y.
Proof.
  intros Hx Hy Heq. apply number_chars_inj; [done..|].
  by rewrite <- !ToString_chars, Heq.
Qed.

Lemma digit_numeric cs : Forall digit cs → Forall numeric cs.
Proof. intros H. eapply Forall_impl; [done|]. by left. Qed.

Lemma positive_chars_numeric m e : 0 < m → Forall numeric (positive_chars m e).
Proof.
  intros Hm.
  pose proof (digit_numeric _ (digits_all_digits m ltac:(lia))) as Hd.
  assert (∀ c, c ∈ list_ascii_of_string ".e+-InfityNa" → numeric c) as Hsym
    by (intros c Hc; by right).
  assert (∀ a, Forall numeric (zeros a)) as Hz
    by (intros a; apply digit_numeric, zeros_digits).
  unfold positive_chars. set (ds := digits m) in *.
  set (k := Z.of_nat (length ds)). set (n := e + k).
  assert (Forall numeric (digits (Z.abs (n - 1)))) as Hex
    by (apply digit_numeric, digits_all_digits; lia).
  destruct ((k <=? n) && (n <=? 21));
    [|destruct ((0 <? n) && (n <=? 21));
      [|destruct ((-6 <? n) && (n <=? 0))]].
  - apply Forall_app. by split.
  - apply Forall_app. split; [by apply Forall_take|].
    constructor; [apply Hsym; set_solver|by apply Forall_drop].
  - constructor; [by left|].
    constructor; [apply Hsym; set_solver|].
    apply Forall_app. by split.
  - assert (Forall numeric
              ((if n - 1 <? 0 then "-"%char else "+"%char)
                 :: digits (Z.abs (n - 1)))) as Hex'.
    { constructor; [|done]. destruct (n - 1 <? 0); apply Hsym; set_solver. }
    destruct ds as [|d [|r rest]]; [done|..].
    + apply Forall_cons in Hd as [Hd _].
      constructor; [done|]. constructor; [apply Hsym; set_solver|done].
    + apply Forall_cons in Hd as [Hd Hrest].
      constructor; [done|]. constructor; [apply Hsym; set_solver|].
      apply Forall_app. split; [done|].
      constructor; [apply Hsym; set_solver|done].
Qed.

Ltac symbol := right; apply (bool_decide_unpack _); by vm_compute.

Lemma number_chars_numeric x : Forall numeric (number_chars x).
Proof.
  destruct x as [|[]|m e].
  - cbn. repeat (apply Forall_cons; split; [symbol|]). by apply Forall_nil.
  - cbn. repeat (apply Forall_cons; split; [symbol|]). by apply Forall_nil.
  - cbn. repeat (apply Forall_cons; split; [symbol|]). by apply Forall_nil.
  - rewrite number_chars_Dec. case_decide.
    + apply Forall_cons; split; [by left|by apply Forall_nil].
    + destruct (m <? 0) eqn:Hneg; bools.
      * apply Forall_cons; split; [symbol|].
        apply positive_chars_numeric. lia.
      * apply positive_chars_numeric. lia.
Qed.

Lemma separator_not_numeric c :
  c = "x"%char ∨ c = ":"%char → ¬ numeric c.
Proof.
  intros [-> | ->] [Hd | Hs]; try discriminate Hd;
    by apply (bool_decide_pack _) in Hs.
Qed.

Lemma ToString_no_separator c x :
  c = "x"%char ∨ c = ":"%char → c ∉ list_ascii_of_string (ToString x).
Proof.
  intros Hc Hin. rewrite ToString_chars in Hin.
  pose proof (number_chars_numeric x) as Hn.
  rewrite Forall_forall in Hn. apply Hn in Hin.
  by apply separator_not_numeric in Hin.
Qed.

(** ** The cache key *)

Lemma append_cons c s t : String c s +:+ t = String c (s +:+ t).
Proof. done. Qed.

Lemma chars_append s t :
  list_ascii_of_string (s +:+ t)
  = list_ascii_of_string s ++ list_ascii_of_string t.
Proof. induction s as [|c s IH]; [done|]. rewrite append_cons. simpl. by f_equal. Qed.

Lemma cache_key_chars w h d s c :
  list_ascii_of_string (cache_key w h d s c)
  = number_chars w ++ "x"%char :: number_chars h ++ ":"%char :: number_chars d
      ++ ":"%char :: number_chars s ++ ":"%char :: number_chars c.
Proof.
  unfold cache_key. rewrite !chars_append, !ToString_chars. done.
Qed.

Lemma number_chars_no_separator sep x :
  sep = "x"%char ∨ sep = ":"%char → sep ∉ number_chars x.
Proof. intros Hsep. rewrite <- ToString_chars. by apply ToString_no_separator. Qed.

Lemma cache_key_inj w h d s c w' h' d' s' c' :
  canonical_tuple (w, h, d, s, c) → canonical_tuple (w', h', d', s', c') →
  cache_key w h d s c = cache_key w' h' d' s' c' →
  (w, h, d, s, c) = (w', h', d', s', c').
Proof.
  intros (Hw & Hh & Hd & Hs & Hc) (Hw' & Hh' & Hd' & Hs' & Hc') Heq.
  apply (f_equal list_ascii_of_string) in Heq.
  rewrite !cache_key_chars in Heq.
  apply split_at_separator in Heq as [Ew Heq];
    [|apply number_chars_no_separator; auto..].
  apply split_at_separator in Heq as [Eh Heq];
    [|apply number_chars_no_separator; auto..].
  apply split_at_separator in Heq as [Ed Heq];
    [|apply number_chars_no_separator; auto..].
  apply split_at_separator in Heq as [Es Ec];
    [|apply number_chars_no_separator; auto..].
  apply number_chars_inj in Ew, Eh, Ed, Es, Ec; [|done..].
  by subst.
Qed.

(** C2. On parameter tuples in canonical form the cache key is injective:
    two tuples have the same key exactly when they are the same tuple, so a
    change to any one of width, height, depth, strength and chromatic
    aberration changes the key, and equal tuples have equal keys. *)
Theorem cache_key_injective t t' :
  canonical_tuple t → canonical_tuple t' →
  (tuple_key t = tuple_key t' ↔ t = t')
  ∧ (t ≠ t' → tuple_key t ≠ tuple_key t').
Proof.
  intros Ht Ht'.
  assert (tuple_key t = tuple_key t' → t = t') as Hinj.
  { destruct t as [[[[w h] d] s] c], t' as [[[[w' h'] d'] s'] c'].
    by apply cache_key_inj. }
  split_and!; [split; [done|by intros ->]|]. intros Hne Heq. auto.
Qed.

Lemma cache_key_injective_witness :
  let t := (ofZ 200, ofZ 100, ofZ 10, ofZ 100, ofZ 0) in
  let t' := (ofZ 200, ofZ 100, ofZ 10, ofZ 100, Dec 5 (-1)) in
  tuple_key t ≠ tuple_key t'.
Proof.
  intros t t'.
  destruct (cache_key_injective t t') as [_ Hne].
  - vm_compute. repeat split; (reflexivity || (intros H; discriminate H)).
  - vm_compute. repeat split; (reflexivity || (intros H; discriminate H)).
  - apply Hne. discriminate.
Defined.

(** *** The tuples of an update cycle are in canonical form *)

Lemma strip_zeros_canonical fuel m e m' e' :
  m ≠ 0 → Z.abs m < 2 ^ (Z.of_nat fuel + 1) →
  strip_zeros fuel m e = (m', e') → m' ≠ 0 ∧ m' mod 10 ≠ 0.
Proof.
  revert m e. induction fuel as [|fuel IH]; intros m e Hm Hb; simpl.
  - intros [= <- <-]. change (2 ^ (Z.of_nat 0 + 1)) with 2 in Hb.
    split; [done|]. assert (m = 1 ∨ m = -1) as [-> | ->] by lia; done.
  - case_decide as Hd; [|by intros [= <- <-]].
    apply IH.
    + Z.div_mod_to_equations. lia.
    + replace (Z.of_nat (S fuel) + 1) with (Z.succ (Z.of_nat fuel + 1)) in Hb
        by lia.
      rewrite Z.pow_succ_r in Hb by lia.
      assert (0 < 2 ^ (Z.of_nat fuel + 1)) by (apply Z.pow_pos_nonneg; lia).
      Z.div_mod_to_equations. lia.
Qed.

Lemma norm_canonical m e : canonical (norm m e).
Proof.
  unfold norm. case_decide as Hz; [done|].
  destruct (strip_zeros _ m e) as [m' e'] eqn:Hs.
  apply strip_zeros_canonical in Hs as [Hm' Hmod]; [| done |].
  - simpl. by case_decide.
  - rewrite Z2Nat.id by apply Z.log2_nonneg.
    replace (Z.log2 (Z.abs m) + 1) with (Z.succ (Z.log2 (Z.abs m))) by lia.
    apply Z.log2_spec. lia.
Qed.

Lemma neg_canonical x : canonical x → canonical (neg x).
Proof.
  destruct x as [| |m e]; simpl; [done..|].
  repeat case_decide; try done; try lia. apply opposite_mod.
Qed.

Lemma unsigned_literal_canonical cs : canonical (unsigned_literal cs).
Proof.
  unfold unsigned_literal. destruct (starts_with _ cs); [done|].
  destruct (span_digits cs) as [ip r1].
  destruct (match r1 with
            | "."%char :: r => span_digits r
            | _ => ([], r1)
            end) as [fp r2].
  case_bool_decide; [done|]. apply norm_canonical.
Qed.

Lemma parseFloat_canonical s : canonical (parseFloat s).
Proof.
  unfold parseFloat.
  destruct (trim_start _) as [|c rest]; [apply unsigned_literal_canonical|].
  destruct (decide (c = "-"%char)) as [-> | Hminus].
  { apply neg_canonical, unsigned_literal_canonical. }
  destruct (decide (c = "+"%char)) as [-> | Hplus].
  { apply unsigned_literal_canonical. }
  assert (match c :: rest with
          | "-"%char :: rest0 => neg (unsigned_literal rest0)
          | "+"%char :: rest0 => unsigned_literal rest0
          | cs => unsigned_literal cs
          end = unsigned_literal (c :: rest)) as ->.
  { destruct c as [[] [] [] [] [] [] [] []]; done. }
  apply unsigned_literal_canonical.
Qed.

Lemma Math_round_canonical x : canonical (Math_round x).
Proof.
  destruct x as [| |m e]; simpl; [done..|].
  destruct (0 <=? e); apply norm_canonical.
Qed.

Lemma getNumberAttribute_canonical h name defaultValue :
  canonical defaultValue → canonical (_getNumberAttribute h name defaultValue).
Proof.
  intros Hd. unfold _getNumberAttribute.
  destruct (getAttribute h name) as [value|]; [|done].
  case_decide; [done|apply parseFloat_canonical].
Qed.

Lemma regeneration_tuple_canonical h :
  canonical_tuple (regeneration_tuple h).
Proof.
  unfold regeneration_tuple, canonical_tuple.
  split_and!; try apply Math_round_canonical.
  all: apply getNumberAttribute_canonical, norm_canonical.
Qed.

(** Two cycles have the same key exactly when they work on the same
    tuple. *)
Lemma current_key_inj h h' :
  current_key h = current_key h' → regeneration_tuple h = regeneration_tuple h'.
Proof.
  pose proof (regeneration_tuple_canonical h) as Hc.
  pose proof (regeneration_tuple_canonical h') as Hc'.
  unfold current_key.
  destruct (regeneration_tuple h) as [[[[w0 h0] d0] s0] c0].
  destruct (regeneration_tuple h') as [[[[w1 h1] d1] s1] c1].
  by apply cache_key_inj.
Qed.



(** ** The update cycle *)

Lemma update_aborts force h this :
  measurable h = false → _updateFilter force h this = (this, []).
Proof.
  unfold measurable, _updateFilter. intros Hm.
  apply negb_false_iff in Hm. by rewrite Hm.
Qed.

Lemma update_unfold force h this :
  measurable h = true →
  _updateFilter force h this =
    if negb force && key_unchanged (_prev this) (current_key h)
    then (this, blur_calls h this ++ interactive_calls h)
    else (stored h this,
          blur_calls h this ++ interactive_calls h
            ++ [setProperty "--lg-filter" (filter_reference h this)]).
Proof.
  unfold measurable, _updateFilter. intros Hm.
  apply negb_true_iff in Hm. rewrite Hm.
  unfold current_key, filter_reference, regeneration_tuple, blur_calls,
    interactive_calls, stored, current_key, regeneration_tuple.
  destruct (negb force && _); [done|].
  by destruct (_advSupported this && _).
Qed.

Lemma writes_to_app name ops1 ops2 :
  writes_to name (ops1 ++ ops2) = writes_to name ops1 ++ writes_to name ops2.
Proof. apply omap_app. Qed.

Lemma filter_writes_before_check h this :
  writes_to "--lg-filter" (blur_calls h this ++ interactive_calls h) = [].
Proof.
  rewrite writes_to_app. unfold blur_calls, interactive_calls.
  by destruct (blur_changed _ _), (_isInteractive h).
Qed.

Lemma filter_writes_regenerating h this v :
  writes_to "--lg-filter"
    (blur_calls h this ++ interactive_calls h ++ [setProperty "--lg-filter" v])
  = [v].
Proof.
  rewrite app_assoc, writes_to_app, filter_writes_before_check. done.
Qed.

Lemma regenerates_iff force h this :
  measurable h = true →
  regenerates force h this ↔
    force = true ∨ key (_prev this) ≠ Some (current_key h).
Proof.
  intros Hm. unfold regenerates. rewrite update_unfold by done.
  unfold key_unchanged. destruct force; simpl.
  - rewrite filter_writes_regenerating. split; [by left|done].
  - case_bool_decide as Hk; simpl.
    + rewrite filter_writes_before_check. split; [done|]. by intros [|].
    + rewrite filter_writes_regenerating. split; [by right|done].
Qed.

Lemma key_after_update force h this :
  measurable h = true →
  key (_prev (_updateFilter force h this).1) = Some (current_key h).
Proof.
  intros Hm. rewrite update_unfold by done. unfold key_unchanged.
  destruct force; simpl; [done|].
  case_bool_decide; simpl; done.
Qed.

Lemma round_zero m e : m = 0 → Math_round (Dec m e) = Dec 0 0.
Proof.
  intros ->. unfold Math_round. destruct (0 <=? e) eqn:He; [done|].
  apply Z.leb_gt in He.
  assert (0 < 10 ^ (- e)) by (apply Z.pow_pos_nonneg; lia).
  rewrite Z.mul_0_r, Z.add_0_l, Z.div_small by lia. done.
Qed.

Lemma positive_round_measurable x :
  gt (Math_round x) (ofZ 0) = true → falsy x = false.
Proof.
  destruct x as [|s|m e]; intros Hgt; [done..|].
  apply Z.eqb_neq. intros ->.
  by rewrite round_zero in Hgt.
Qed.

Lemma positive_box_measurable h :
  gt (Math_round (rect_width h)) (ofZ 0) = true →
  gt (Math_round (rect_height h)) (ofZ 0) = true →
  measurable h = true.
Proof.
  intros Hw%positive_round_measurable Hh%positive_round_measurable.
  unfold measurable. by rewrite Hw, Hh.
Qed.

(** C1. In a cycle whose rounded dimensions are positive, a filter
    reference is published exactly when the refresh is forced or the cache
    key of the current tuple differs from the stored one; a regeneration
    publishes the reference of the current tuple once and stores its key; a
    forced refresh always regenerates; and a following unforced cycle with
    the same tuple does not. *)
Theorem regeneration_iff_forced_or_key_changed force h this :
  gt (Math_round (rect_width h)) (ofZ 0) = true →
  gt (Math_round (rect_height h)) (ofZ 0) = true →
  (regenerates force h this ↔
     force = true ∨ key (_prev this) ≠ Some (current_key h))
  ∧ (regenerates force h this →
       writes_to "--lg-filter" (_updateFilter force h this).2
         = [filter_reference h this]
       ∧ _prev (_updateFilter force h this).1
         = {| key := Some (current_key h);
              blur := Some (_getNumberAttribute h "blur" (ofZ 2)) |})
  ∧ regenerates true h this
  ∧ (∀ h',
       gt (Math_round (rect_width h')) (ofZ 0) = true →
       gt (Math_round (rect_height h')) (ofZ 0) = true →
       regeneration_tuple h' = regeneration_tuple h →
       ¬ regenerates false h' (_updateFilter force h this).1).
Proof.
  intros Hw Hh. pose proof (positive_box_measurable h Hw Hh) as Hm.
  split_and!.
  - by apply regenerates_iff.
  - intros Hr. apply regenerates_iff in Hr; [|done].
    rewrite update_unfold by done. unfold key_unchanged.
    destruct force; simpl.
    + by rewrite filter_writes_regenerating.
    + case_bool_decide; simpl; [by destruct Hr|].
      by rewrite filter_writes_regenerating.
  - apply regenerates_iff; auto.
  - intros h' Hw' Hh' Ht Hr.
    apply regenerates_iff in Hr; [|by apply positive_box_measurable].
    destruct Hr as [|Hr]; [done|]. apply Hr.
    rewrite key_after_update by done.
    unfold current_key. by rewrite Ht.
Qed.

Lemma regeneration_iff_forced_or_key_changed_witness :
  let h := box (Dec 2004 (-1)) (ofZ 100) [("strength", "120")] in
  (regenerates false h initial ↔
     false = true ∨ key (_prev initial) ≠ Some (current_key h))
  ∧ ¬ regenerates false h (_updateFilter false h initial).1.
Proof.
  intros h.
  destruct (regeneration_iff_forced_or_key_changed false h initial)
    as (H1 & _ & _ & H4); [reflexivity..|].
  split; [exact H1|]. apply H4; reflexivity.
Defined.

(** C5, as the code has it. A cycle in which a measured dimension is zero
    or NaN before rounding makes no style call and leaves the instance as it
    was. *)
Theorem unmeasurable_box_aborts force h this :
  falsy (rect_width h) = true ∨ falsy (rect_height h) = true →
  _updateFilter force h this = (this, []).
Proof.
  intros Hz. apply update_aborts. unfold measurable.
  destruct Hz as [-> | ->]; [done|]. by rewrite orb_true_r.
Qed.

Lemma unmeasurable_box_aborts_witness :
  _updateFilter true (box (ofZ 0) (ofZ 50) [("blur", "4")]) initial
    = (initial, []).
Proof. apply unmeasurable_box_aborts. left. reflexivity. Defined.

(** Every other cycle makes at least the two interactive-state calls. *)
Lemma measurable_box_writes force h this :
  measurable h = true → (_updateFilter force h this).2 ≠ [].
Proof.
  intros Hm. rewrite update_unfold by done.
  assert (interactive_calls h ≠ []) by (unfold interactive_calls; by destruct (_isInteractive h)).
  destruct (negb force && _); simpl; intros [? ?]%app_eq_nil; try done.
  by destruct (interactive_calls h).
Qed.

(** C5, as stated, fails: a width of 0.4 rounds to zero, yet the cycle
    publishes the blur and a filter reference and stores a key. *)
Lemma rounds_to_zero_still_updates :
  ¬ (∀ force h this,
       Math_round (rect_width h) = ofZ 0 ∨ Math_round (rect_height h) = ofZ 0 →
       _updateFilter force h this = (this, [])).
Proof.
  intros H.
  specialize (H false (box (Dec 4 (-1)) (ofZ 50) []) initial).
  assert ((_updateFilter false (box (Dec 4 (-1)) (ofZ 50) []) initial).1
          = initial) as Hs by (rewrite H; [done|by left]).
  vm_compute in Hs. discriminate Hs.
Qed.

Lemma le_zero_not_gt x : le x (ofZ 0) = true → gt x (ofZ 0) = false.
Proof.
  destruct x as [| |m e]; [done| |]; unfold le; intros H;
    by apply negb_true_iff in H.
Qed.

(** C6. What the code does on three cycles over an unchanged box, where
    the blur attribute goes from absent to 3 and stays: the third cycle
    writes 3px again although 3px is what the channel already holds, the
    stored blur being refreshed only by a regeneration. *)
Example blur_rewritten_while_key_unchanged :
  let h2 := box (ofZ 100) (ofZ 50) [] in
  let h3 := box (ofZ 100) (ofZ 50) [("blur", "3")] in
  writes_to "--lg-blur" <$>
    (update_cycles [(false, h2); (false, h3); (false, h3)] initial).2
  = [["2px"]; ["3px"]; ["3px"]].
Proof. vm_compute. reflexivity. Qed.

(** The same defect the other way round: the blur goes back to its
    default, the channel keeps 3px. *)
Example blur_left_stale_while_key_unchanged :
  let h2 := box (ofZ 100) (ofZ 50) [] in
  let h3 := box (ofZ 100) (ofZ 50) [("blur", "3")] in
  writes_to "--lg-blur" <$>
    (update_cycles [(false, h2); (false, h3); (false, h2)] initial).2
  = [["2px"]; ["3px"]; []].
Proof. vm_compute. reflexivity. Qed.

(** ** Parameter resolution *)

Lemma missing_attribute h name defaultValue :
  getAttribute h name = None ∨ getAttribute h name = Some "" →
  _getNumberAttribute h name defaultValue = defaultValue.
Proof.
  unfold _getNumberAttribute. by intros [-> | ->].
Qed.

Lemma present_attribute h name defaultValue value :
  getAttribute h name = Some value → value ≠ "" →
  _getNumberAttribute h name defaultValue = parseFloat value.
Proof.
  unfold _getNumberAttribute. intros -> Hne. by case_decide.
Qed.

(** C4, as the code has it. A missing or empty attribute resolves to the
    default; any other value resolves to what [parseFloat] makes of it, NaN
    included; and a cycle on an element with none of the four attributes
    set works with depth 10, strength 100, chromatic aberration 0 and
    blur 2.  Resolution is a total function: it has no failure to report. *)
Theorem attribute_resolution h name defaultValue :
  (getAttribute h name = None ∨ getAttribute h name = Some "" →
   _getNumberAttribute h name defaultValue = defaultValue)
  ∧ (∀ value,
       getAttribute h name = Some value → value ≠ "" →
       _getNumberAttribute h name defaultValue = parseFloat value)
  ∧ ((∀ name', name' ∈ ["depth"; "strength"; "chromatic"; "blur"] →
        getAttribute h name' = None ∨ getAttribute h name' = Some "") →
     measurable h = true →
     ∀ this,
       _prev (_updateFilter true h this).1
       = {| key := Some (cache_key (Math_round (rect_width h))
                           (Math_round (rect_height h))
                           (ofZ 10) (ofZ 100) (ofZ 0));
            blur := Some (ofZ 2) |}).
Proof.
  split_and!.
  - apply missing_attribute.
  - apply present_attribute.
  - intros Hnone Hm this. rewrite update_unfold by done. simpl.
    unfold current_key, regeneration_tuple.
    rewrite !missing_attribute by (apply Hnone; set_solver). done.
Qed.

Lemma attribute_resolution_witness :
  let h := box (ofZ 10) (ofZ 20) [("depth", ""); ("strength", "abc")] in
  _getNumberAttribute h "depth" (ofZ 10) = ofZ 10
  ∧ _getNumberAttribute h "blur" (ofZ 2) = ofZ 2
  ∧ _getNumberAttribute h "strength" (ofZ 100) = NaN.
Proof.
  intros h. split_and!.
  - apply (attribute_resolution h "depth" (ofZ 10)). right. reflexivity.
  - apply (attribute_resolution h "blur" (ofZ 2)). left. reflexivity.
  - apply (attribute_resolution h "strength" (ofZ 100)) with (value := "abc").
    + reflexivity.
    + discriminate.
Defined.

(** C4, as stated, fails: an attribute that does not parse as a number
    resolves to NaN, not to the default. *)
Lemma unparseable_attribute_is_NaN :
  ¬ (∀ h name defaultValue,
       (getAttribute h name = None
        ∨ ∃ value, getAttribute h name = Some value ∧ parseFloat value = NaN) →
       _getNumberAttribute h name defaultValue = defaultValue).
Proof.
  intros H.
  specialize (H (box (ofZ 10) (ofZ 10) [("strength", "abc")]) "strength" (ofZ 100)).
  assert (NaN = ofZ 100) as Hs; [|discriminate Hs].
  rewrite <- H; [reflexivity|]. right. by exists "abc".
Qed.

(** ** The displacement map and the filter *)

Lemma head_filter_hit {A} (P : A → Prop) `{∀ x, Decision (P x)} x l :
  P x → head (filter P (x :: l)) = Some x.
Proof. intros. by rewrite filter_cons_True. Qed.

Lemma head_filter_miss {A} (P : A → Prop) `{∀ x, Decision (P x)} x l :
  ¬ P x → head (filter P (x :: l)) = head (filter P l).
Proof. intros. by rewrite filter_cons_False. Qed.

(** Walking the flattened document for an identifier. *)
Ltac names := cbn; repeat (case_decide; [discriminate|]).
Ltac skip_node :=
  rewrite head_filter_miss by (names; rewrite ?append_cons; congruence).
Ltac take_node := rewrite head_filter_hit by (names; by case_decide).
Ltac find_node := repeat skip_node; take_node; names; try by case_decide.

Lemma gradient_attributes fid height width radius depth :
  let doc := displacement_map_svg fid height width radius depth in
  let Y := getElementById ("Y-" +:+ fid) doc in
  let X := getElementById ("X-" +:+ fid) doc in
  Y ≫= attr "y1" = Some (percent (gradient_start radius height))
  ∧ Y ≫= attr "y2" = Some (percent (gradient_end radius height))
  ∧ X ≫= attr "x1" = Some (percent (gradient_start radius width))
  ∧ X ≫= attr "x2" = Some (percent (gradient_end radius width)).
Proof.
  unfold getElementById, displacement_map_svg, stop.
  cbn [descendants map concat app children_of].
  split_and!; find_node.
Qed.

Lemma strip_zeros_value fuel m e m' e' :
  strip_zeros fuel m e = (m', e') → e ≤ e' ∧ m = m' * 10 ^ (e' - e).
Proof.
  revert m e. induction fuel as [|fuel IH]; intros m e; simpl.
  - intros [= -> ->]. rewrite Z.sub_diag. lia.
  - case_decide as Hd.
    + intros [He Hm]%IH. split; [lia|].
      replace (e' - e) with (Z.succ (e' - (e + 1))) by lia.
      rewrite Z.pow_succ_r by lia.
      rewrite (Z.div_mod m 10) at 1 by lia. lia.
    + intros [= -> ->]. rewrite Z.sub_diag. lia.
Qed.

Lemma exact_ofZ z : exact (ofZ z) = Ratio (inject_Z z).
Proof.
  unfold ofZ, norm. case_decide as Hz; [by subst|].
  destruct (strip_zeros _ z 0) as [m' e'] eqn:Hs.
  apply strip_zeros_value in Hs as [He Hm]. rewrite Z.sub_0_r in Hm.
  simpl. unfold toQ.
  destruct (0 <=? e') eqn:Hle; [by rewrite Hm|].
  apply Z.leb_gt in Hle. lia.
Qed.

(** [Math.ceil((16 / extent) * 15)] and [Math.floor(100 - (16 / extent) * 15)]
    on a positive whole extent. *)
Lemma gradient_start_16 (extent : positive) :
  gradient_start (ofZ 16) (ofZ (Z.pos extent)) = ofZ (- (-240 / Z.pos extent)).
Proof.
  unfold gradient_start. rewrite !exact_ofZ.
  unfold rdiv, rmul, Qzero, Math_ceil, Qceiling, Qfloor.
  cbn [inject_Z Qnum Z.eqb].
  f_equal.
  cbv [Qdiv Qmult Qinv Qopp inject_Z Qnum Qden].
  rewrite !Pos.mul_1_r, !Pos.mul_1_l. reflexivity.
Qed.

Lemma gradient_end_16 (extent : positive) :
  gradient_end (ofZ 16) (ofZ (Z.pos extent))
  = ofZ (100 - - (-240 / Z.pos extent)).
Proof.
  unfold gradient_end. rewrite !exact_ofZ.
  unfold rdiv, rmul, rsub, Qzero, Math_floor, Qfloor.
  cbn [inject_Z Qnum Z.eqb].
  f_equal.
  cbv [Qminus Qplus Qdiv Qmult Qinv Qopp inject_Z Qnum Qden].
  rewrite !Pos.mul_1_r, !Pos.mul_1_l.
  rewrite Z.sub_opp_r, <- Z.div_add_l by lia. f_equal.
Qed.

Lemma gradient_attributes_16 fid (height width : positive) depth :
  let doc :=
    displacement_map_svg fid (ofZ (Z.pos height)) (ofZ (Z.pos width))
      (ofZ 16) depth in
  let Y := getElementById ("Y-" +:+ fid) doc in
  let X := getElementById ("X-" +:+ fid) doc in
  let inset (extent : positive) := - (-240 / Z.pos extent) in
  Y ≫= attr "y1" = Some (percent (ofZ (inset height)))
  ∧ Y ≫= attr "y2" = Some (percent (ofZ (100 - inset height)))
  ∧ X ≫= attr "x1" = Some (percent (ofZ (inset width)))
  ∧ X ≫= attr "x2" = Some (percent (ofZ (100 - inset width))).
Proof.
  intros doc Y X inset.
  destruct (gradient_attributes fid (ofZ (Z.pos height)) (ofZ (Z.pos width))
              (ofZ 16) depth) as (Hy1 & Hy2 & Hx1 & Hx2).
  rewrite !gradient_start_16 in Hx1, Hy1.
  rewrite !gradient_end_16 in Hx2, Hy2.
  done.
Qed.

(** C3, as the code has it. The gradients are inset by the corner radius,
    which the update cycle fixes at 16, not by the depth: on a box of
    [height] by [width] whole pixels the vertical gradient runs from
    [ceil(240 / height)] percent to [100 - ceil(240 / height)] percent and
    the horizontal one likewise on [width], whatever the depth. *)
Theorem gradient_insets_follow_radius fid (height width : positive) depth :
  let doc :=
    displacement_map_svg fid (ofZ (Z.pos height)) (ofZ (Z.pos width))
      (ofZ 16) depth in
  let Y := getElementById ("Y-" +:+ fid) doc in
  let X := getElementById ("X-" +:+ fid) doc in
  let inset (extent : positive) := - (-240 / Z.pos extent) in
  Y ≫= attr "y1" = Some (percent (ofZ (inset height)))
  ∧ Y ≫= attr "y2" = Some (percent (ofZ (100 - inset height)))
  ∧ X ≫= attr "x1" = Some (percent (ofZ (inset width)))
  ∧ X ≫= attr "x2" = Some (percent (ofZ (100 - inset width))).
Proof. apply gradient_attributes_16. Qed.

(** On a box 200 wide and 100 high the insets are 3 and 2 percent. *)
Example gradient_insets_200_by_100 depth :
  let doc := displacement_map_svg "lg-0" (ofZ 100) (ofZ 200) (ofZ 16) depth in
  let Y := getElementById "Y-lg-0" doc in
  let X := getElementById "X-lg-0" doc in
  (Y ≫= attr "y1", Y ≫= attr "y2", X ≫= attr "x1", X ≫= attr "x2")
  = (Some "3%", Some "97%", Some "2%", Some "98%").
Proof.
  intros doc Y X.
  destruct (gradient_attributes_16 "lg-0" 100 200 depth)
    as (Hy1 & Hy2 & Hx1 & Hx2).
  change ("Y-" +:+ "lg-0") with "Y-lg-0" in Hy1, Hy2.
  change ("X-" +:+ "lg-0") with "X-lg-0" in Hx1, Hx2.
  subst doc Y X. rewrite Hy1, Hy2, Hx1, Hx2.
  reflexivity.
Qed.

(** C3, as stated, fails: with depth 10 on a box 200 wide and 100 high the
    vertical inset is 3 percent, not [ceil(10 / 100 * 15) = 2]. *)
Lemma gradient_inset_not_from_depth :
  ¬ (∀ fid height width depth,
       getElementById ("Y-" +:+ fid)
         (displacement_map_svg fid height width (ofZ 16) depth) ≫= attr "y1"
       = Some (percent (gradient_start depth height))).
Proof.
  intros H. specialize (H "lg-0" (ofZ 100) (ofZ 200) (ofZ 10)).
  destruct (gradient_attributes_16 "lg-0" 100 200 (ofZ 10)) as (Hy1 & _).
  rewrite Hy1 in H. vm_compute in H. discriminate H.
Qed.

(** ** Whole numbers *)











(** *** What the style holds after a run of cycles *)

Lemma publish_app style ops1 ops2 :
  publish style (ops1 ++ ops2) = publish (publish style ops1) ops2.
Proof. apply foldl_app. Qed.

Lemma publish_before_check style h this :
  publish style (blur_calls h this ++ interactive_calls h) !! "--lg-filter"
  = style !! "--lg-filter".
Proof.
  rewrite publish_app. unfold blur_calls, interactive_calls.
  destruct (blur_changed _ _), (_isInteractive h); unfold publish;
    cbn [foldl apply_op app];
    repeat first [rewrite lookup_insert_ne by done
                 |rewrite lookup_delete_ne by done]; done.
Qed.

Lemma filter_reference_same_tuple h h' this this' :
  regeneration_tuple h = regeneration_tuple h' →
  _advSupported this = _advSupported this' →
  _filterId this = _filterId this' →
  filter_reference h this = filter_reference h' this'.
Proof. unfold filter_reference. by intros -> -> ->. Qed.

Lemma update_keeps_identity force h this :
  _advSupported (_updateFilter force h this).1 = _advSupported this
  ∧ _filterId (_updateFilter force h this).1 = _filterId this.
Proof.
  destruct (measurable h) eqn:Hm.
  - rewrite update_unfold by done. by destruct (negb force && _).
  - by rewrite update_aborts.
Qed.

Lemma update_coherent force h this style :
  coherent this style →
  coherent (_updateFilter force h this).1
           (publish style (_updateFilter force h this).2).
Proof.
  intros Hco. destruct (measurable h) eqn:Hm.
  - rewrite update_unfold by done.
    destruct (negb force && _); simpl.
    + unfold coherent in *. destruct (key (_prev this)); [|done].
      destruct Hco as (h0 & -> & Hst). exists h0.
      by rewrite publish_before_check.
    + unfold coherent. simpl. exists h. split; [done|].
      rewrite app_assoc, publish_app. cbn [publish foldl apply_op].
      by rewrite lookup_insert_eq.
  - by rewrite update_aborts.
Qed.

Lemma update_cycles_coherent cycles this style :
  coherent this style →
  coherent (update_cycles cycles this).1
           (publish style (concat (update_cycles cycles this).2)).
Proof.
  revert this style. induction cycles as [|[force h] cycles IH];
    intros this style Hco; [done|].
  cbn [update_cycles].
  pose proof (update_coherent force h this style Hco) as Hco1.
  destruct (_updateFilter force h this) as [this1 ops].
  specialize (IH this1 _ Hco1).
  destruct (update_cycles cycles this1) as [this2 opss].
  simpl in *. by rewrite publish_app.
Qed.

(** After any run of cycles from a fresh instance, a cycle on a measurable
    box with [strength <= 0] and [chromatic <= 0] leaves none as the
    published filter reference, whether it regenerates or skips. *)
Lemma published_filter_none cycles start force h :
  key (_prev start) = None →
  measurable h = true →
  le (_getNumberAttribute h "strength" (ofZ 100)) (ofZ 0) = true →
  le (_getNumberAttribute h "chromatic" (ofZ 0)) (ofZ 0) = true →
  let this := (update_cycles cycles start).1 in
  let style := publish ∅ (concat (update_cycles cycles start).2) in
  publish style (_updateFilter force h this).2 !! "--lg-filter" = Some "none".
Proof.
  intros Hstart Hm Hs%le_zero_not_gt Hc%le_zero_not_gt this style.
  assert (coherent this style) as Hco.
  { apply update_cycles_coherent. unfold coherent. by rewrite Hstart. }
  assert (∀ this', filter_reference h this' = "none") as Hnone.
  { intros this'. unfold filter_reference, regeneration_tuple.
    by rewrite Hs, Hc, andb_false_r. }
  rewrite update_unfold by done. unfold key_unchanged.
  destruct force; simpl.
  - rewrite app_assoc, publish_app. cbn [publish foldl apply_op].
    by rewrite lookup_insert_eq, Hnone.
  - case_bool_decide as Hk; simpl.
    + rewrite publish_before_check. unfold coherent in Hco.
      rewrite Hk in Hco. destruct Hco as (h0 & [= Hkey] & Hst).
      rewrite Hst. f_equal. rewrite <- (Hnone this).
      apply filter_reference_same_tuple; [|done..].
      symmetry. by apply current_key_inj.
    + rewrite app_assoc, publish_app. cbn [publish foldl apply_op].
      by rewrite lookup_insert_eq, Hnone.
Qed.

(** After a cycle on [h], an unforced cycle on [h'] regenerates exactly
    when one of the five values has changed. *)
Lemma next_cycle_regenerates_iff force h h' this :
  measurable h = true → measurable h' = true →
  regenerates false h' (_updateFilter force h this).1
  ↔ regeneration_tuple h' ≠ regeneration_tuple h.
Proof.
  intros Hm Hm'. rewrite regenerates_iff by done.
  rewrite key_after_update by done. split.
  - intros [? | Hk] Ht; [done|]. apply Hk. unfold current_key. by rewrite Ht.
  - intros Ht. right. intros [= Hk]. apply Ht. symmetry.
    by apply current_key_inj.
Qed.

(** C7. In a cycle with [strength <= 0] and [chromatic <= 0] the reference
    to publish is the literal none: whatever the cycle writes to the filter
    property is none, no displacement filter being built; a cycle that
    regenerates writes it exactly once; and after any run of cycles on an
    instance that started without a key, such a cycle on a measurable box
    leaves none as the published reference, whether it regenerates or
    skips. *)
Theorem no_filter_without_displacement force h this :
  le (_getNumberAttribute h "strength" (ofZ 100)) (ofZ 0) = true →
  le (_getNumberAttribute h "chromatic" (ofZ 0)) (ofZ 0) = true →
  filter_reference h this = "none"
  ∧ Forall (λ v, v = "none")
      (writes_to "--lg-filter" (_updateFilter force h this).2)
  ∧ (regenerates force h this →
       writes_to "--lg-filter" (_updateFilter force h this).2 = ["none"])
  ∧ (∀ cycles start,
       key (_prev start) = None →
       this = (update_cycles cycles start).1 →
       measurable h = true →
       publish (publish ∅ (concat (update_cycles cycles start).2))
               (_updateFilter force h this).2 !! "--lg-filter"
       = Some "none").
Proof.
  intros Hs0 Hc0.
  pose proof (le_zero_not_gt _ Hs0) as Hs.
  pose proof (le_zero_not_gt _ Hc0) as Hc.
  assert (filter_reference h this = "none") as Hnone.
  { unfold filter_reference, regeneration_tuple.
    by rewrite Hs, Hc, andb_false_r. }
  assert (writes_to "--lg-filter" (_updateFilter force h this).2 = []
          ∨ writes_to "--lg-filter" (_updateFilter force h this).2 = ["none"])
    as Hcases.
  { destruct (measurable h) eqn:Hm.
    - rewrite update_unfold by done.
      destruct (negb force && _); simpl.
      + left. apply filter_writes_before_check.
      + right. by rewrite filter_writes_regenerating, Hnone.
    - left. by rewrite update_aborts. }
  split_and!; [done| | |].
  - destruct Hcases as [-> | ->]; by repeat constructor.
  - unfold regenerates. by destruct Hcases as [-> | ->].
  - intros cycles start Hstart -> Hm. by apply published_filter_none.
Qed.

Lemma no_filter_without_displacement_witness :
  let h := box (ofZ 200) (ofZ 100) [("strength", "0"); ("chromatic", "-1.5")] in
  filter_reference h initial = "none"
  ∧ writes_to "--lg-filter" (_updateFilter false h initial).2 = ["none"].
Proof.
  intros h.
  destruct (no_filter_without_displacement false h initial)
    as (H1 & _ & H3 & _); [reflexivity..|].
  split; [exact H1|]. apply H3. vm_compute. discriminate.
Defined.


(** ** The capability probe *)

Lemma construct_all_probed envs flag n :
  let cls := {| static_advSupported := Some flag; probes := n |} in
  (construct_all envs cls).1 = cls
  ∧ Forall (λ this, _advSupported this = flag) (construct_all envs cls).2.
Proof.
  induction envs as [|[o fid] envs [IH1 IH2]]; simpl; [done|].
  destruct (construct_all envs _) as [cls2 others]. simpl in *.
  split; [done|]. by constructor.
Qed.

Lemma construct_all_length envs cls :
  length (construct_all envs cls).2 = length envs.
Proof.
  revert cls. induction envs as [|[o fid] envs IH]; intros cls; [done|].
  cbn [construct_all].
  destruct (constructor o fid cls) as [cls1 this].
  specialize (IH cls1). destruct (construct_all envs cls1). simpl in *.
  by f_equal.
Qed.

(** C10. However many instances are constructed, and whatever
    [CSS.supports] would do at each construction, the probe runs once, at
    the first; the static flag is its result from then on and every
    instance carries that same value; a probe that throws or reports no
    support gives false, and a construction yields its instance in every
    case. *)
Theorem probe_runs_once css_supports filterId envs :
  let result :=
    construct_all ((css_supports, filterId) :: envs) fresh_class in
  let flag := _supportsAdvancedFilters css_supports in
  probes result.1 = 1%nat
  ∧ static_advSupported result.1 = Some flag
  ∧ length result.2 = S (length envs)
  ∧ Forall (λ this, _advSupported this = flag) result.2
  ∧ (css_supports = Throws ∨ css_supports = Returns false ↔ flag = false).
Proof.
  intros result flag.
  assert (length result.2 = S (length envs)) as Hlen
    by apply construct_all_length.
  subst result. simpl in *.
  pose proof (construct_all_probed envs flag 1) as [H1 H2].
  fold flag. fold flag in Hlen. simpl in H1, H2.
  destruct (construct_all envs _) as [cls2 others]. simpl in *.
  subst cls2. split_and!; try done.
  - by constructor.
  - subst flag. destruct css_supports as [[]|]; simpl; intuition congruence.
Qed.

(** No construction, no probe. *)
Lemma probe_not_run_before_construction :
  probes (construct_all [] fresh_class).1 = 0%nat.
Proof. done. Qed.

(** * Further properties of the update cycle *)

Lemma append_assoc (s t u : string) : (s +:+ t) +:+ u = s +:+ t +:+ u.
Proof. induction s as [|c s IH]; [done|]. rewrite !append_cons. by f_equal. Qed.

(** What one cycle writes to the filter property: nothing, or the
    reference of its box built with the instance's own flag and
    identifier. *)
Lemma filter_writes_of_cycle force h this :
  writes_to "--lg-filter" (_updateFilter force h this).2 = []
  ∨ writes_to "--lg-filter" (_updateFilter force h this).2
    = [filter_reference h this].
Proof.
  destruct (measurable h) eqn:Hm.
  - rewrite update_unfold by done. destruct (negb force && _); simpl.
    + left. apply filter_writes_before_check.
    + right. apply filter_writes_regenerating.
  - left. by rewrite update_aborts.
Qed.

Lemma filter_writes_of_run (P : string → Prop) cycles start :
  (∀ h this,
     _advSupported this = _advSupported start →
     _filterId this = _filterId start →
     P (filter_reference h this)) →
  Forall (Forall P)
    (writes_to "--lg-filter" <$> (update_cycles cycles start).2).
Proof.
  intros HP.
  assert (∀ this,
            _advSupported this = _advSupported start →
            _filterId this = _filterId start →
            Forall (Forall P)
              (writes_to "--lg-filter" <$> (update_cycles cycles this).2))
    as Hgen; [|by apply Hgen].
  induction cycles as [|[force h] cycles IH]; intros this Hadv Hid.
  { constructor. }
  cbn [update_cycles].
  pose proof (filter_writes_of_cycle force h this) as Hw.
  destruct (update_keeps_identity force h this) as [Hadv1 Hid1].
  destruct (_updateFilter force h this) as [this1 ops]. simpl in *.
  specialize (IH this1 ltac:(congruence) ltac:(congruence)).
  destruct (update_cycles cycles this1) as [this2 opss]. simpl in *.
  constructor; [|done].
  destruct Hw as [-> | ->]; [constructor|].
  constructor; [by apply HP|constructor].
Qed.

(** X1. On an instance whose capability flag is false, no run of update
    cycles ever publishes anything but none as the filter reference,
    whatever the boxes, attributes and forced refreshes. *)
Theorem unsupported_always_none cycles start :
  _advSupported start = false →
  Forall (Forall (λ v, v = "none"))
    (writes_to "--lg-filter" <$> (update_cycles cycles start).2).
Proof.
  intros Hadv. apply filter_writes_of_run. intros h this Ha _.
  unfold filter_reference. destruct (regeneration_tuple h) as [[[[w ht] d] s] c].
  by rewrite Ha, Hadv.
Qed.

Lemma unsupported_always_none_witness :
  let start := {| _prev := {| key := None; blur := None |};
                  _advSupported := false; _filterId := "lg-1" |} in
  let cycles := [(false, box (ofZ 120) (ofZ 40) [("strength", "150")]);
                 (true, box (ofZ 121) (ofZ 40) [("chromatic", "20")])] in
  Forall (Forall (λ v, v = "none"))
    (writes_to "--lg-filter" <$> (update_cycles cycles start).2).
Proof. intros start cycles. apply unsupported_always_none. reflexivity. Defined.

(** X2. The identifier drawn at construction is the one every published
    reference carries: through any run of update cycles, a value written
    to the filter property is none or a data URL whose fragment is
    [#displace-] followed by the identifier the instance started with. *)
Theorem published_references_keep_identifier cycles start :
  Forall (Forall (λ v,
            v = "none"
            ∨ ∃ body, v = "url('data:image/svg+xml;utf8," +:+ body
                            +:+ "#displace-" +:+ _filterId start +:+ "')"))
    (writes_to "--lg-filter" <$> (update_cycles cycles start).2).
Proof.
  apply filter_writes_of_run. intros h this _ Hid.
  unfold filter_reference. destruct (regeneration_tuple h) as [[[[w ht] d] s] c].
  destruct (_advSupported this && _); [|by left].
  right. unfold _getDisplacementFilter. rewrite Hid.
  generalize (encodeURIComponent
                (serialize (displacement_filter_svg (_filterId start) ht w
                              (ofZ 16) d s c))).
  intros body. exists body. rewrite !append_assoc.
  generalize (body +:+ "#displace-" +:+ _filterId start +:+ "')").
  intros rest. reflexivity.
Qed.

Lemma strict_eq_refl x : x ≠ NaN → strict_eq x x = true.
Proof.
  destruct x as [|s|m e]; [done| |]; intros _; simpl.
  - by apply bool_decide_eq_true_2.
  - apply Z.eqb_refl.
Qed.

(** X3. A cycle that regenerated leaves nothing to do for an unforced
    cycle on the same box and attributes: unless the blur is NaN, the
    repeat writes neither blur nor filter reference, only the two
    interactive-state calls, and leaves the instance as it is. *)
Theorem repeat_after_regeneration_is_quiet force h this :
  regenerates force h this →
  _getNumberAttribute h "blur" (ofZ 2) ≠ NaN →
  let this1 := (_updateFilter force h this).1 in
  _updateFilter false h this1 = (this1, interactive_calls h).
Proof.
  intros Hr Hblur this1.
  assert (measurable h = true) as Hm.
  { destruct (measurable h) eqn:Hm; [done|].
    unfold regenerates in Hr. by rewrite update_aborts in Hr. }
  assert (this1 = stored h this) as ->.
  { subst this1. apply regenerates_iff in Hr; [|done].
    rewrite update_unfold by done. unfold key_unchanged.
    destruct force; simpl; [done|].
    case_bool_decide; [by destruct Hr|done]. }
  rewrite update_unfold by done.
  unfold key_unchanged, blur_calls, blur_changed. simpl.
  rewrite bool_decide_eq_true_2 by done.
  by rewrite strict_eq_refl.
Qed.

Lemma repeat_after_regeneration_is_quiet_witness :
  let h := box (ofZ 300) (ofZ 80) [("interactive", ""); ("blur", "4")] in
  let this1 := (_updateFilter false h initial).1 in
  _updateFilter false h this1
  = (this1, [setProperty "--lg-opacity" "0.85"; setProperty "--lg-scale" "1"]).
Proof.
  intros h this1.
  apply (repeat_after_regeneration_is_quiet false h initial).
  - vm_compute. discriminate.
  - vm_compute. discriminate.
Defined.

(** X4. The cache check neither skips a change nor repeats work: after a
    cycle on one measurable box, an unforced cycle on another regenerates
    exactly when the rounded width, the rounded height, the depth, the
    strength or the chromatic aberration differs. *)
Theorem regeneration_tracks_the_tuple force h h' this :
  measurable h = true → measurable h' = true →
  regenerates false h' (_updateFilter force h this).1
  ↔ regeneration_tuple h' ≠ regeneration_tuple h.
Proof. apply next_cycle_regenerates_iff. Qed.

Lemma regeneration_tracks_the_tuple_witness :
  let h := box (Dec 2004 (-1)) (ofZ 100) [("blur", "3")] in
  let h' := box (Dec 1996 (-1)) (ofZ 100) [("blur", "9"); ("depth", "10.0")] in
  ¬ regenerates false h' (_updateFilter false h initial).1.
Proof.
  intros h h' Hr.
  apply (regeneration_tracks_the_tuple false h h' initial) in Hr;
    [|reflexivity..].
  apply Hr. reflexivity.
Defined.

(** * Further properties of parameter resolution *)

Lemma span_digits_app ds rest :
  Forall digit ds →
  match rest with [] => True | c :: _ => is_digit c = false end →
  span_digits (ds ++ rest) = (ds, rest).
Proof.
  intros Hds Hrest. induction Hds as [|d ds Hd _ IH]; simpl.
  - destruct rest as [|c rest]; [done|]. simpl. by rewrite Hrest.
  - unfold digit in Hd. by rewrite Hd, IH.
Qed.

Lemma digit_not_space c : digit c → Ascii.is_space c = false.
Proof.
  unfold digit, is_digit, digit_value.
  destruct c as [[] [] [] [] [] [] [] []]; simpl; done.
Qed.

Lemma trim_start_digit d rest : digit d → trim_start (d :: rest) = d :: rest.
Proof.
  intros Hd. cbn [trim_start]. rewrite (digit_not_space d Hd).
  assert (Hn : (N_of_ascii d <? 128)%N = true).
  { unfold digit, is_digit in Hd.
    destruct d as [[] [] [] [] [] [] [] []]; simpl in Hd; done. }
  apply N.ltb_lt in Hn.
  destruct rest as [|b2 [|b3 rest]]; [done|..].
  - unfold space_in_two_bytes.
    replace (N_of_ascii d =? 194)%N with false; [done|].
    symmetry. apply N.eqb_neq. lia.
  - unfold space_in_two_bytes, space_in_three_bytes. cbv zeta.
    replace (N_of_ascii d =? 194)%N with false
      by (symmetry; apply N.eqb_neq; lia).
    replace (N_of_ascii d =? 225)%N with false
      by (symmetry; apply N.eqb_neq; lia).
    replace (N_of_ascii d =? 226)%N with false
      by (symmetry; apply N.eqb_neq; lia).
    replace (N_of_ascii d =? 227)%N with false
      by (symmetry; apply N.eqb_neq; lia).
    replace (N_of_ascii d =? 239)%N with false
      by (symmetry; apply N.eqb_neq; lia).
    done.
Qed.

Lemma digit_not_sign c :
  digit c → c ≠ "-"%char ∧ c ≠ "+"%char ∧ c ≠ "I"%char.
Proof. intros Hc. split_and!; by intros ->. Qed.

Lemma parseFloat_whole_number n suffix :
  0 ≤ n → unit_suffix suffix →
  parseFloat (string_of_list_ascii (digits n ++ suffix)) = ofZ n.
Proof.
  intros Hn Hsuffix.
  pose proof (digits_all_digits n Hn) as Hds.
  pose proof (digits_nonempty n Hn) as Hne.
  pose proof (digits_value_digits n Hn) as Hval.
  unfold parseFloat. rewrite list_ascii_of_string_of_list_ascii.
  assert (span_digits (digits n ++ suffix) = (digits n, suffix)) as Hspan.
  { apply span_digits_app; [done|]. destruct suffix; [done|]. apply Hsuffix. }
  destruct (digits n) as [|d ds] eqn:Hd; [done|].
  pose proof (Forall_inv Hds) as Hdigit.
  destruct (digit_not_sign d Hdigit) as (Hminus & Hplus & HI).
  cbn [app]. rewrite (trim_start_digit d _ Hdigit).
  assert (unsigned_literal (d :: ds ++ suffix) = ofZ n) as Hlit.
  { unfold unsigned_literal.
    assert (starts_with "Infinity" (d :: ds ++ suffix) = false) as ->.
    { unfold starts_with. apply bool_decide_eq_false_2. simpl. congruence. }
    change (d :: ds ++ suffix) with ((d :: ds) ++ suffix). rewrite Hspan.
    assert (match suffix with
            | "."%char :: r => span_digits r
            | _ => ([], suffix)
            end = ([], suffix)) as ->.
    { destruct suffix as [|c r]; [done|].
      destruct Hsuffix as (_ & Hdot & _).
      destruct c as [[] [] [] [] [] [] [] []]; done. }
    rewrite bool_decide_eq_false_2 by (by intros [? _]).
    rewrite app_nil_r, Hval.
    assert (exponent_part suffix = 0) as ->.
    { destruct suffix as [|c r]; [done|].
      destruct Hsuffix as (_ & _ & He & HE). simpl.
      rewrite bool_decide_eq_false_2; [done|]. by intros [|]. }
    done. }
  destruct d as [[] [] [] [] [] [] [] []]; try done.
Qed.

(** X5. An attribute that holds a whole number of at most 2^53, alone or
    followed by a unit such as px, resolves to that number; in particular
    an explicit 0 is kept as 0 and not replaced by the default.  Up to 2^53
    every whole number is a binary64 value, so that no digit is lost in
    reading it. *)
Theorem whole_number_attribute h name defaultValue n suffix :
  0 ≤ n ≤ 2 ^ 53 → unit_suffix suffix →
  getAttribute h name = Some (string_of_list_ascii (digits n ++ suffix)) →
  _getNumberAttribute h name defaultValue = ofZ n.
Proof.
  intros [Hn _] Hsuffix Hattr. unfold _getNumberAttribute. rewrite Hattr.
  case_decide as Hempty.
  - apply (f_equal list_ascii_of_string) in Hempty.
    rewrite list_ascii_of_string_of_list_ascii in Hempty.
    apply app_eq_nil in Hempty as [Hd _].
    by apply digits_nonempty in Hd.
  - by apply parseFloat_whole_number.
Qed.

Lemma whole_number_attribute_witness :
  let h := box (ofZ 50) (ofZ 50) [("strength", "0"); ("blur", "12px")] in
  _getNumberAttribute h "strength" (ofZ 100) = ofZ 0
  ∧ _getNumberAttribute h "blur" (ofZ 2) = ofZ 12.
Proof.
  intros h. split.
  - apply (whole_number_attribute h "strength" (ofZ 100) 0 []);
      [lia|exact I|reflexivity].
  - apply (whole_number_attribute h "blur" (ofZ 2) 12
             (list_ascii_of_string "px")); [lia| |reflexivity].
    vm_compute. repeat split; discriminate.
Defined.

(** * Further properties of the data URLs *)

Lemma node_induction (P : node → Prop) :
  (∀ content, P (Text content)) →
  (∀ tag attrs children, Forall P children → P (Element tag attrs children)) →
  ∀ n, P n.
Proof.
  intros HT HE. fix IH 1. intros [tag attrs children|content]; [|apply HT].
  apply HE. induction children as [|child children IHc]; constructor.
  - apply IH.
  - apply IHc.
Qed.

Lemma hex_char_range k :
  hex_char k ∈ list_ascii_of_string "0123456789ABCDEF".
Proof.
  unfold hex_char. apply list_elem_of_In.
  destruct (decide (N.to_nat k < 16)%nat) as [Hk|Hk].
  - apply nth_In. simpl. lia.
  - rewrite nth_overflow by (simpl; lia). simpl. auto.
Qed.

(** A character of an encoded string is an unreserved character of the
    source, a percent sign or an upper-case hexadecimal digit. *)
Lemma encodeURIComponent_chars s x :
  x ∈ list_ascii_of_string (encodeURIComponent s) →
  (x ∈ list_ascii_of_string s ∧ uri_unreserved x = true)
  ∨ x ∈ list_ascii_of_string "%0123456789ABCDEF".
Proof.
  induction s as [|c s IH]; simpl; [by intros ?%elem_of_nil|].
  destruct (uri_unreserved c) eqn:Hc; simpl.
  - intros [-> | Hin]%elem_of_cons.
    + left. split; [left|done].
    + destruct (IH Hin) as [[? ?] | ?]; [left; split; [by right|done]|by right].
  - intros [-> | [-> | [-> | Hin]%elem_of_cons]%elem_of_cons]%elem_of_cons.
    + right. left.
    + right. right. apply hex_char_range.
    + right. right. apply hex_char_range.
    + destruct (IH Hin) as [[? ?] | ?]; [left; split; [by right|done]|by right].
Qed.

Lemma hex_char_inj j k :
  (j < 16)%N → (k < 16)%N → hex_char j = hex_char k → j = k.
Proof.
  intros Hj Hk.
  assert (∀ i, (i < 16)%N →
            i = 0 ∨ i = 1 ∨ i = 2 ∨ i = 3 ∨ i = 4 ∨ i = 5 ∨ i = 6 ∨ i = 7
            ∨ i = 8 ∨ i = 9 ∨ i = 10 ∨ i = 11 ∨ i = 12 ∨ i = 13 ∨ i = 14
            ∨ i = 15)%N as Hcases by lia.
  destruct (Hcases j Hj) as [->|[->|[->|[->|[->|[->|[->|[->|[->|[->|[->|[->|[->|[->|[->| ->]]]]]]]]]]]]]]];
  destruct (Hcases k Hk) as [->|[->|[->|[->|[->|[->|[->|[->|[->|[->|[->|[->|[->|[->|[->| ->]]]]]]]]]]]]]]];
  vm_compute; intros Heq; try reflexivity; discriminate Heq.
Qed.

Lemma escape_inj c c' :
  hex_char (N_of_ascii c / 16) = hex_char (N_of_ascii c' / 16) →
  hex_char (N_of_ascii c mod 16) = hex_char (N_of_ascii c' mod 16) →
  c = c'.
Proof.
  intros Hhi Hlo.
  pose proof (N_ascii_bounded c) as Hc. pose proof (N_ascii_bounded c') as Hc'.
  apply hex_char_inj in Hhi;
    [|apply N.Div0.div_lt_upper_bound; lia..].
  apply hex_char_inj in Hlo; [|apply N.mod_lt; lia..].
  rewrite <- (ascii_N_embedding c), <- (ascii_N_embedding c'). f_equal.
  rewrite (N.div_mod (N_of_ascii c) 16), (N.div_mod (N_of_ascii c') 16) by lia.
  by rewrite Hhi, Hlo.
Qed.

(** X6. [encodeURIComponent] loses nothing: two strings with the same
    encoding are the same string, so the data URL of a document changes
    whenever its text does. *)
Theorem encodeURIComponent_injective s t :
  encodeURIComponent s = encodeURIComponent t → s = t.
Proof.
  revert t. induction s as [|c s IH]; intros [|c' t]; simpl.
  - done.
  - by destruct (uri_unreserved c').
  - by destruct (uri_unreserved c).
  - destruct (uri_unreserved c) eqn:Hc, (uri_unreserved c') eqn:Hc'.
    + intros [= -> Heq]. f_equal. by apply IH.
    + intros [= -> _]. done.
    + intros [= <- _]. done.
    + intros [= Hhi Hlo Heq]. f_equal; [by apply escape_inj|by apply IH].
Qed.

Lemma encodeURIComponent_injective_witness :
  encodeURIComponent "<" ≠ encodeURIComponent "%3C".
Proof.
  intros Heq. apply encodeURIComponent_injective in Heq. discriminate Heq.
Defined.

Lemma concat_strings_chars (c : ascii) l :
  (∀ s, s ∈ l → c ∉ list_ascii_of_string s) →
  c ∉ list_ascii_of_string (concat_strings l).
Proof.
  induction l as [|s l IH]; intros Hl; simpl; [apply not_elem_of_nil|].
  rewrite chars_append. apply not_elem_of_app. split.
  - apply Hl. left.
  - apply IH. intros t Ht. apply Hl. by right.
Qed.

Lemma elem_of_concat_map {A B} (f : A → list B) (l : list A) (y : B) :
  (∃ x, x ∈ l ∧ y ∈ f x) → y ∈ concat (map f l).
Proof.
  intros (x & Hx & Hy). induction l as [|a l IH]; [by apply elem_of_nil in Hx|].
  simpl. apply elem_of_app.
  apply elem_of_cons in Hx as [<- | Hx]; [by left|right; by apply IH].
Qed.

Lemma elem_of_map {A B} (f : A → B) (l : list A) (y : B) :
  y ∈ map f l → ∃ x, y = f x ∧ x ∈ l.
Proof.
  induction l as [|a l IH]; simpl; [by intros ?%elem_of_nil|].
  intros [-> | Hin]%elem_of_cons; [exists a; split; [done|left]|].
  destruct (IH Hin) as (x & -> & Hx). exists x. split; [done|by right].
Qed.

Ltac in_list :=
  cbn;
  solve [repeat first [apply list_elem_of_here | apply list_elem_of_further]].

(** A character that occurs in none of the serializer's own pieces occurs
    in a serialized document only if it occurs in one of the document's
    strings. *)
Lemma serialize_chars (c : ascii) n :
  (∀ lit, lit ∈ ["<"; ">"; " />"; "</"; " "; "="; quote] →
     c ∉ list_ascii_of_string lit) →
  (∀ s, s ∈ node_texts n → c ∉ list_ascii_of_string s) →
  c ∉ list_ascii_of_string (serialize n).
Proof.
  intros Hlit. induction n as [content|tag attrs children IH] using node_induction;
    intros Htexts.
  { simpl. apply Htexts. left. }
  assert (c ∉ list_ascii_of_string
            ("<" +:+ tag +:+ concat_strings (serialize_attr <$> attrs)))
    as Hopen.
  { rewrite !chars_append, !not_elem_of_app. split_and!.
    - apply Hlit. in_list.
    - apply Htexts. left.
    - apply concat_strings_chars. intros s [a [-> Ha]]%list_elem_of_fmap.
      unfold serialize_attr. rewrite !chars_append, !not_elem_of_app.
      assert (∀ t, t ∈ [a.1; a.2] → c ∉ list_ascii_of_string t) as Ha'.
      { intros t Ht. apply Htexts. right. apply elem_of_app. left.
        apply elem_of_concat_map. by exists a. }
      split_and!; try (apply Hlit; in_list); apply Ha'; in_list. }
  assert (c ∉ list_ascii_of_string (concat_strings (map serialize children)))
    as Hchildren.
  { apply concat_strings_chars. intros s [child [-> Hchild]]%elem_of_map.
    rewrite Forall_forall in IH. apply IH; [done|].
    intros t Ht. apply Htexts. right. apply elem_of_app. right.
    apply elem_of_concat_map. by exists child. }
  cbn [serialize]. cbv zeta.
  set (open := "<" +:+ tag +:+ concat_strings (serialize_attr <$> attrs)) in *.
  set (inner := concat_strings (map serialize children)) in *.
  destruct children as [|child children].
  - rewrite chars_append, not_elem_of_app. split; [done|].
    apply Hlit. in_list.
  - rewrite !chars_append, !not_elem_of_app.
    split_and!; try done; try (apply Hlit; in_list).
    apply Htexts. left.
Qed.

Lemma ToString_only_numeric c x :
  ¬ numeric c → c ∉ list_ascii_of_string (ToString x).
Proof.
  intros Hc Hin. rewrite ToString_chars in Hin.
  pose proof (number_chars_numeric x) as Hn.
  rewrite Forall_forall in Hn. by apply Hn in Hin.
Qed.

Lemma apostrophe_not_numeric : ¬ numeric "'"%char.
Proof. intros [Hd | Hs]; [done|]. by apply (bool_decide_pack _) in Hs. Qed.

Lemma encodeURIComponent_keeps_apostrophe_out s :
  "'"%char ∉ list_ascii_of_string s →
  "'"%char ∉ list_ascii_of_string (encodeURIComponent s).
Proof.
  intros Hs [[? _] | Hhex]%encodeURIComponent_chars; [done|].
  by apply (bool_decide_pack _) in Hhex.
Qed.

(** Solving [c ∉ chars s] for an apostrophe and a string put together from
    literals, printed numbers and the identifier. *)
Ltac literal := apply (bool_decide_unpack _); by vm_compute.
Ltac apostrophe_free :=
  unfold percent;
  rewrite ?chars_append, ?not_elem_of_app; split_and?;
  first [assumption
        | apply ToString_only_numeric, apostrophe_not_numeric
        | literal].
Ltac each_text H :=
  repeat (apply elem_of_cons in H as [-> | H]; [apostrophe_free|]);
  by apply elem_of_nil in H.

Lemma serializer_apostrophe_free lit :
  lit ∈ ["<"; ">"; " />"; "</"; " "; "="; quote] →
  "'"%char ∉ list_ascii_of_string lit.
Proof. intros H. each_text H. Qed.

Lemma map_apostrophe_free fid height width radius depth :
  "'"%char ∉ list_ascii_of_string fid →
  "'"%char ∉ list_ascii_of_string
               (_getDisplacementMap fid height width radius depth).
Proof.
  intros Hfid. unfold _getDisplacementMap.
  rewrite chars_append, not_elem_of_app. split; [literal|].
  apply encodeURIComponent_keeps_apostrophe_out.
  apply serialize_chars; [apply serializer_apostrophe_free|].
  intros s Hs. unfold displacement_map_svg, stop in Hs.
  cbn [node_texts map concat app fst snd] in Hs.
  each_text Hs.
Qed.

(** X7. The data URL of the filter never contains an apostrophe, provided
    the instance identifier has none: inside [url('...')] the reference
    cannot end the quoted string early, whatever the box and the numbers. *)
Theorem filter_url_apostrophe_free
    fid height width radius depth strength chromaticAberration :
  "'"%char ∉ list_ascii_of_string fid →
  "'"%char ∉ list_ascii_of_string
               (_getDisplacementFilter fid height width radius depth
                  strength chromaticAberration).
Proof.
  intros Hfid.
  pose proof (map_apostrophe_free fid height width radius depth Hfid) as Hmap.
  unfold _getDisplacementFilter.
  rewrite !chars_append, !not_elem_of_app. split_and!; [literal| |literal|done].
  apply encodeURIComponent_keeps_apostrophe_out.
  apply serialize_chars; [apply serializer_apostrophe_free|].
  intros s Hs.
  unfold displacement_filter_svg, feDisplacementMap, feColorMatrix in Hs.
  revert Hs Hmap.
  generalize (_getDisplacementMap fid height width radius depth) as href.
  intros href Hs Hmap.
  cbn [node_texts map concat app fst snd] in Hs.
  each_text Hs.
Qed.

Lemma filter_url_apostrophe_free_witness :
  "'"%char ∉ list_ascii_of_string
               (_getDisplacementFilter "lg-k3x9" (ofZ 48) (ofZ 160) (ofZ 16)
                  (ofZ 10) (ofZ 100) (Dec 25 (-1))).
Proof. apply filter_url_apostrophe_free. literal. Defined.

Lemma count_absent (c : ascii) cs :
  c ∉ cs → length (filter (λ x, x = c) cs) = 0%nat.
Proof.
  induction cs as [|x cs IH]; [done|].
  intros [Hx Hcs]%not_elem_of_cons.
  rewrite filter_cons_False by (by intros ->). by apply IH.
Qed.

(** X8. When the instance identifier has no [#], the data URL of the
    filter has exactly one, the one before [displace-] and the
    identifier; what stands before it is the encoding of the filter
    document, and that document has a [filter] element with exactly the id
    the fragment names: the reference resolves to the filter the element
    built. *)
Theorem filter_url_fragment_resolves
    fid height width radius depth strength chromaticAberration :
  "#"%char ∉ list_ascii_of_string fid →
  let doc := displacement_filter_svg fid height width radius depth
               strength chromaticAberration in
  let url := _getDisplacementFilter fid height width radius depth
               strength chromaticAberration in
  url = "data:image/svg+xml;utf8," +:+ encodeURIComponent (serialize doc)
          +:+ "#" +:+ "displace-" +:+ fid
  ∧ length (filter (λ c, c = "#"%char) (list_ascii_of_string url)) = 1%nat
  ∧ (tag_of <$> getElementById ("displace-" +:+ fid) doc) = Some "filter".
Proof.
  intros Hfid doc url. split_and!.
  - reflexivity.
  - subst url. unfold _getDisplacementFilter. fold doc.
    rewrite !chars_append, !filter_app, !length_app.
    rewrite (count_absent _ (list_ascii_of_string fid)) by done.
    rewrite (count_absent _ (list_ascii_of_string "data:image/svg+xml;utf8,"))
      by literal.
    rewrite (count_absent _ (list_ascii_of_string (encodeURIComponent _))).
    + reflexivity.
    + intros [[_ Hu] | Hhex]%encodeURIComponent_chars; [done|].
      by apply (bool_decide_pack _) in Hhex.
  - subst doc. unfold displacement_filter_svg, feDisplacementMap, feColorMatrix.
    generalize (_getDisplacementMap fid height width radius depth) as href.
    intros href. unfold getElementById.
    cbn [descendants map concat app children_of].
    repeat skip_node. take_node. reflexivity.
Qed.

Lemma filter_url_fragment_resolves_witness :
  length
    (filter (λ c, c = "#"%char)
       (list_ascii_of_string
          (_getDisplacementFilter "lg-0" (ofZ 30) (ofZ 40) (ofZ 16) (ofZ 10)
             (ofZ 100) (ofZ 5))))
  = 1%nat.
Proof.
  apply (filter_url_fragment_resolves "lg-0" (ofZ 30) (ofZ 40) (ofZ 16)
           (ofZ 10) (ofZ 100) (ofZ 5)).
  literal.
Defined.

(** * Further properties of the displacement map *)

(** X9. On a box at least 5 pixels in the given direction the gradient of
    the displacement map starts between 1 and 48 percent and ends at the
    mirrored position, so it runs forward; on a box of 1 to 4 pixels the
    start lies at 60 percent or beyond, past its end. *)
Theorem gradient_direction (extent : positive) :
  ∃ inset,
    gradient_start (ofZ 16) (ofZ (Z.pos extent)) = ofZ inset
    ∧ gradient_end (ofZ 16) (ofZ (Z.pos extent)) = ofZ (100 - inset)
    ∧ (5 ≤ Z.pos extent → 1 ≤ inset ≤ 48)
    ∧ (Z.pos extent < 5 → 60 ≤ inset)
    ∧ (240 ≤ Z.pos extent → inset = 1).
Proof.
  exists (- (-240 / Z.pos extent)).
  rewrite gradient_start_16, gradient_end_16.
  split_and!; [done..| | |]; intros Hext; Z.div_mod_to_equations; nia.
Qed.

(** X10. In the displacement map every gradient the rectangles paint with
    is defined in the same document under the instance's own identifier:
    the two blended rectangles are filled with [url(#Y-id)] and
    [url(#X-id)], and these ids name its two [linearGradient] elements. *)
Theorem map_gradients_are_defined fid height width radius depth :
  let doc := displacement_map_svg fid height width radius depth in
  omap (attr "fill")
    (filter (λ n, attr "class" n = Some "mix") (descendants doc))
  = ["url(#Y-" +:+ fid +:+ ")"; "url(#X-" +:+ fid +:+ ")"]
  ∧ (tag_of <$> getElementById ("Y-" +:+ fid) doc) = Some "linearGradient"
  ∧ (tag_of <$> getElementById ("X-" +:+ fid) doc) = Some "linearGradient"
  ∧ attr "id" <$> getElementsByTagName "linearGradient" doc
    = [Some ("Y-" +:+ fid); Some ("X-" +:+ fid)].
Proof.
  intros doc. subst doc. unfold displacement_map_svg, stop.
  generalize (percent (gradient_start radius height)) as y1,
    (percent (gradient_end radius height)) as y2,
    (percent (gradient_start radius width)) as x1,
    (percent (gradient_end radius width)) as x2,
    (ToString (sub height (mul (ofZ 2) depth))) as ih,
    (ToString (sub width (mul (ofZ 2) depth))) as iw,
    ("blur(" +:+ ToString depth +:+ "px)") as bl,
    (ToString depth) as d, (ToString radius) as r,
    (ToString height) as h, (ToString width) as w,
    ("0 0 " +:+ ToString width +:+ " " +:+ ToString height) as vb.
  intros vb w h r d bl iw ih x2 x1 y2 y1.
  split_and!.
  - generalize ("url(#Y-" +:+ fid +:+ ")") as fy,
      ("url(#X-" +:+ fid +:+ ")") as fx, ("Y-" +:+ fid) as idy,
      ("X-" +:+ fid) as idx.
    intros idx idy fx fy. vm_compute. reflexivity.
  - unfold getElementById. cbn [descendants map concat app children_of].
    repeat skip_node. take_node. reflexivity.
  - unfold getElementById. cbn [descendants map concat app children_of].
    repeat skip_node. take_node. reflexivity.
  - generalize ("url(#Y-" +:+ fid +:+ ")") as fy,
      ("url(#X-" +:+ fid +:+ ")") as fx, ("Y-" +:+ fid) as idy,
      ("X-" +:+ fid) as idx.
    intros idx idy fx fy. vm_compute. reflexivity.
Qed.

(** ** The surface and the host's accessibility attributes *)

Lemma has_attribute_true h name :
  hasAttribute h name = true ↔ is_Some (attributes h !! name).
Proof. unfold hasAttribute. by rewrite bool_decide_eq_true. Qed.

Lemma has_attribute_false h name :
  hasAttribute h name = false ↔ attributes h !! name = None.
Proof.
  unfold hasAttribute. rewrite bool_decide_eq_false.
  by rewrite eq_None_not_Some.
Qed.

Lemma has_attribute_get h name :
  hasAttribute h name = bool_decide (getAttribute h name ≠ None).
Proof.
  unfold hasAttribute, getAttribute. apply bool_decide_ext.
  by rewrite not_eq_None_Some.
Qed.

Lemma get_set name value h n :
  getAttribute (setAttribute name value h) n
  = if decide (name = n) then Some value else getAttribute h n.
Proof.
  unfold getAttribute, setAttribute. simpl. case_decide.
  - subst. by rewrite lookup_insert_eq.
  - by rewrite lookup_insert_ne.
Qed.

Lemma get_remove name h n :
  getAttribute (removeAttribute name h) n
  = if decide (name = n) then None else getAttribute h n.
Proof.
  unfold getAttribute, removeAttribute. simpl. case_decide.
  - subst. by rewrite lookup_delete_eq.
  - by rewrite lookup_delete_ne.
Qed.

Lemma has_set name value h n :
  hasAttribute (setAttribute name value h) n
  = bool_decide (name = n) || hasAttribute h n.
Proof.
  rewrite !has_attribute_get, get_set.
  case_decide.
  - by rewrite (bool_decide_eq_true_2 (name = n)), bool_decide_eq_true_2.
  - by rewrite (bool_decide_eq_false_2 (name = n)).
Qed.

Lemma has_remove name h n :
  hasAttribute (removeAttribute name h) n
  = negb (bool_decide (name = n)) && hasAttribute h n.
Proof.
  rewrite !has_attribute_get, get_remove.
  case_decide.
  - rewrite (bool_decide_eq_true_2 (name = n)) by done.
    by rewrite bool_decide_eq_false_2 by (by intros []).
  - by rewrite (bool_decide_eq_false_2 (name = n)).
Qed.

Lemma host_eq h1 h2 :
  rect_width h1 = rect_width h2 → rect_height h1 = rect_height h2 →
  attributes h1 = attributes h2 → h1 = h2.
Proof. destruct h1, h2. simpl. by intros -> -> ->. Qed.

Lemma setAttribute_id name value h :
  getAttribute h name = Some value → setAttribute name value h = h.
Proof. intros H. apply host_eq; try done. simpl. by apply insert_id. Qed.

Lemma removeAttribute_id name h :
  getAttribute h name = None → removeAttribute name h = h.
Proof. intros H. apply host_eq; try done. simpl. by apply delete_id. Qed.

Lemma toggle_present name h :
  toggleAttribute name (hasAttribute h name) h = h.
Proof.
  unfold toggleAttribute. destruct (hasAttribute h name) eqn:Hh; [done|].
  apply removeAttribute_id. by apply has_attribute_false.
Qed.

Lemma surface_set_id name value s :
  surface_attributes s !! name = Some value → surface_set name value s = s.
Proof.
  intros H. destruct s as [tag A kids cl]. unfold surface_set. simpl in *.
  f_equal. by apply insert_id.
Qed.


Lemma on_host_id f c : f (dom c) = dom c → on_host f c = c.
Proof. intros H. destruct c. unfold on_host, with_dom. simpl in *. by f_equal. Qed.

(** The first two blocks leave the host alone. *)
Lemma sync_kind_dom c : dom (sync_kind c) = dom c.
Proof. unfold sync_kind. by repeat case_match. Qed.

Lemma sync_common_unfold c :
  sync_common c
  = on_surface
      (λ s, surface_set "aria-disabled"
              (if hasAttribute (dom c) "disabled" then "true" else "false")
              (surface_set "tabindex" "-1" s)) c.
Proof.
  unfold sync_common. cbv zeta.
  change (dom (on_surface (surface_set "tabindex" "-1") c)) with (dom c).
  rewrite on_host_id by apply toggle_present. done.
Qed.

Lemma sync_common_dom c : dom (sync_common c) = dom c.
Proof. by rewrite sync_common_unfold. Qed.

(** What the link branch and the plain branch do to the host, and that
    only the link branch writes to the surface. *)
Lemma sync_link_dom c :
  dom (sync_link c)
  = removeAttribute "role"
      (if hasAttribute (dom c) "tabindex" then dom c
       else setAttribute "tabindex" "0" (dom c)).
Proof.
  unfold sync_link. cbv zeta.
  destruct (truthy _); destruct (decide (link_rel _ = "")); simpl;
    destruct (getAttribute (dom c) "download"); simpl;
    destruct (hasAttribute (dom c) "tabindex"); reflexivity.
Qed.

Lemma sync_plain_dom c :
  dom (sync_plain c)
  = if hasAttribute (dom c) "interactive"
    then (if hasAttribute (dom c) "tabindex"
          then setAttribute "role" "button" (dom c)
          else setAttribute "tabindex" "0"
                 (setAttribute "role" "button" (dom c)))
    else removeAttribute "role" (dom c).
Proof.
  unfold sync_plain. cbv zeta.
  destruct (hasAttribute (dom c) "interactive"); simpl.
  - rewrite has_set. simpl.
    by destruct (hasAttribute (dom c) "tabindex").
  - rewrite has_remove. simpl.
    destruct (hasAttribute (dom c) "tabindex") eqn:Ht; [done|]. simpl.
    rewrite removeAttribute_id; [done|].
    rewrite get_remove. simpl. by apply has_attribute_false.
Qed.

Lemma sync_plain_surface c : _surface (sync_plain c) = _surface c.
Proof.
  unfold sync_plain. cbv zeta. by repeat case_match.
Qed.

Lemma sync_link_surface c :
  _surface (sync_link c)
  = let s := surface_set "href" (or_else (getAttribute (dom c) "href") "")
               (_surface c) in
    let s := if truthy (getAttribute (dom c) "target")
             then surface_set "target"
                    (default "" (getAttribute (dom c) "target")) s
             else s in
    let s := if decide (link_rel (dom c) = "") then s
             else surface_set "rel" (link_rel (dom c)) s in
    match getAttribute (dom c) "download" with
    | Some dl => surface_set "download" dl s
    | None => s
    end.
Proof.
  unfold sync_link. cbv zeta.
  destruct (truthy _); destruct (decide (link_rel _ = "")); simpl;
    destruct (getAttribute (dom c) "download") as [dl|]; simpl;
    destruct (hasAttribute (dom c) "tabindex"); try reflexivity;
    by destruct (decide (dl = "")) as [->|].
Qed.

Lemma sync_kind_tag c :
  bool_decide (tagName (_surface (sync_kind c)) = "A")
  = hasAttribute (dom c) "href".
Proof.
  unfold sync_kind. cbv zeta.
  destruct (hasAttribute (dom c) "href");
    destruct (bool_decide (tagName (_surface c) = "A")) eqn:Ht; simpl;
    try done.
Qed.

Lemma sync_common_surface c :
  _surface (sync_common c)
  = surface_set "aria-disabled"
      (if hasAttribute (dom c) "disabled" then "true" else "false")
      (surface_set "tabindex" "-1" (_surface c)).
Proof. by rewrite sync_common_unfold. Qed.

Ltac lookups :=
  repeat first
    [ rewrite lookup_insert_eq
    | rewrite lookup_insert_ne by discriminate
    | rewrite lookup_delete_ne by discriminate
    | rewrite lookup_delete_eq ].

Lemma sync_dom c :
  dom (_syncSurface c)
  = if hasAttribute (dom c) "href"
    then removeAttribute "role"
           (if hasAttribute (dom c) "tabindex" then dom c
            else setAttribute "tabindex" "0" (dom c))
    else if hasAttribute (dom c) "interactive"
    then (if hasAttribute (dom c) "tabindex"
          then setAttribute "role" "button" (dom c)
          else setAttribute "tabindex" "0"
                 (setAttribute "role" "button" (dom c)))
    else removeAttribute "role" (dom c).
Proof.
  unfold _syncSurface. cbv zeta.
  destruct (hasAttribute (dom c) "href").
  - by rewrite sync_link_dom, sync_common_dom, sync_kind_dom.
  - by rewrite sync_plain_dom, sync_common_dom, sync_kind_dom.
Qed.

Lemma sync_keeps_attribute c name :
  name ≠ "tabindex" → name ≠ "role" →
  getAttribute (dom (_syncSurface c)) name = getAttribute (dom c) name.
Proof.
  intros Ht Hr. rewrite sync_dom.
  repeat case_match;
    rewrite ?get_set, ?get_remove, ?get_set; by rewrite ?decide_False.
Qed.

Lemma sync_keeps_presence c name :
  name ≠ "tabindex" → name ≠ "role" →
  hasAttribute (dom (_syncSurface c)) name = hasAttribute (dom c) name.
Proof.
  intros Ht Hr. by rewrite !has_attribute_get, sync_keeps_attribute.
Qed.

Lemma sync_role c :
  getAttribute (dom (_syncSurface c)) "role"
  = if negb (hasAttribute (dom c) "href") && hasAttribute (dom c) "interactive"
    then Some "button" else None.
Proof.
  rewrite sync_dom.
  repeat case_match; simpl;
    rewrite ?get_set, ?get_remove, ?get_set; simpl; done.
Qed.

Lemma sync_tabindex c :
  getAttribute (dom (_syncSurface c)) "tabindex"
  = match getAttribute (dom c) "tabindex" with
    | Some v => Some v
    | None =>
        if hasAttribute (dom c) "href" || hasAttribute (dom c) "interactive"
        then Some "0" else None
    end.
Proof.
  rewrite sync_dom.
  destruct (hasAttribute (dom c) "href"); simpl;
    [|destruct (hasAttribute (dom c) "interactive"); simpl];
    destruct (hasAttribute (dom c) "tabindex") eqn:Ht;
    rewrite ?get_set, ?get_remove, ?get_set; simpl;
    try (apply has_attribute_true in Ht as [v Hv]; fold (getAttribute (dom c) "tabindex") in Hv; by rewrite Hv);
    try (apply has_attribute_false in Ht; fold (getAttribute (dom c) "tabindex") in Ht; by rewrite Ht).
Qed.

Lemma sync_surface c :
  _surface (_syncSurface c)
  = let s := surface_set "aria-disabled"
               (if hasAttribute (dom c) "disabled" then "true" else "false")
               (surface_set "tabindex" "-1" (_surface (sync_kind c))) in
    if hasAttribute (dom c) "href" then
      let s := surface_set "href" (or_else (getAttribute (dom c) "href") "") s in
      let s := if truthy (getAttribute (dom c) "target")
               then surface_set "target"
                      (default "" (getAttribute (dom c) "target")) s
               else s in
      let s := if decide (link_rel (dom c) = "") then s
               else surface_set "rel" (link_rel (dom c)) s in
      match getAttribute (dom c) "download" with
      | Some dl => surface_set "download" dl s
      | None => s
      end
    else s.
Proof.
  unfold _syncSurface. cbv zeta.
  destruct (hasAttribute (dom c) "href").
  - rewrite sync_link_surface. cbv zeta.
    by rewrite sync_common_dom, sync_kind_dom, sync_common_surface, sync_kind_dom.
  - by rewrite sync_plain_surface, sync_common_surface, sync_kind_dom.
Qed.

Lemma sync_tag c :
  bool_decide (tagName (_surface (_syncSurface c)) = "A")
  = hasAttribute (dom c) "href".
Proof.
  rewrite <- (sync_kind_tag c), sync_surface. cbv zeta.
  by repeat case_match.
Qed.

Lemma sync_establishes c : synced (_syncSurface c).
Proof.
  unfold synced. cbv zeta.
  rewrite sync_tag, !sync_role.
  rewrite !(has_attribute_get (dom (_syncSurface c))), sync_tabindex.
  unfold link_rel.
  rewrite !sync_keeps_attribute by discriminate.
  rewrite <- !has_attribute_get.
  rewrite sync_surface. cbv zeta.
  split_and!; try done.
  - by repeat case_match; simpl; lookups.
  - by repeat case_match; simpl; lookups.
  - intros Hh. rewrite Hh. simpl. split_and!.
    + by repeat case_match; simpl; lookups.
    + intros Ht. rewrite Ht.
      destruct (getAttribute (dom c) "target") eqn:E; [|done].
      by repeat case_match; simpl; lookups.
    + fold (link_rel (dom c)). intros Hrel. rewrite decide_False by done.
      by repeat case_match; simpl; lookups.
    + intros dl ->. simpl. by lookups.
    + destruct (getAttribute (dom c) "tabindex"); by rewrite ?bool_decide_eq_true_2.
    + done.
  - intros Hh. rewrite Hh. simpl.
    destruct (hasAttribute (dom c) "interactive"); [|done].
    split; [done|].
    destruct (getAttribute (dom c) "tabindex"); by rewrite ?bool_decide_eq_true_2.
Qed.

Lemma component_eq c1 c2 :
  dom c1 = dom c2 → _surface c1 = _surface c2 →
  listeners c1 = listeners c2 → glass c1 = glass c2 →
  timing c1 = timing c2 → _resizeObserver c1 = _resizeObserver c2 →
  isConnected c1 = isConnected c2 → c1 = c2.
Proof. destruct c1, c2. simpl. by intros -> -> -> -> -> -> ->. Qed.

Lemma sync_kind_elsewhere c : elsewhere (sync_kind c) = elsewhere c.
Proof. unfold sync_kind. cbv zeta. by repeat case_match. Qed.

Lemma sync_common_elsewhere c : elsewhere (sync_common c) = elsewhere c.
Proof. by rewrite sync_common_unfold. Qed.

Lemma sync_link_elsewhere c : elsewhere (sync_link c) = elsewhere c.
Proof.
  unfold sync_link. cbv zeta.
  destruct (truthy _); destruct (decide (link_rel _ = "")); simpl;
    destruct (getAttribute (dom c) "download"); simpl;
    destruct (hasAttribute (dom c) "tabindex"); reflexivity.
Qed.

Lemma sync_plain_elsewhere c : elsewhere (sync_plain c) = elsewhere c.
Proof.
  unfold sync_plain. cbv zeta.
  destruct (hasAttribute (dom c) "interactive"); simpl;
    by destruct (hasAttribute _ "tabindex").
Qed.

Lemma sync_elsewhere c : elsewhere (_syncSurface c) = elsewhere c.
Proof.
  unfold _syncSurface. cbv zeta.
  destruct (hasAttribute (dom c) "href").
  - by rewrite sync_link_elsewhere, sync_common_elsewhere, sync_kind_elsewhere.
  - by rewrite sync_plain_elsewhere, sync_common_elsewhere, sync_kind_elsewhere.
Qed.

Lemma sync_kind_settled c :
  bool_decide (tagName (_surface c) = "A") = hasAttribute (dom c) "href" →
  sync_kind c = c.
Proof.
  intros H. unfold sync_kind. cbv zeta. rewrite H.
  by destruct (hasAttribute (dom c) "href").
Qed.

Lemma synced_fixed c : synced c → _syncSurface c = c.
Proof.
  intros (Htag & Htab & Haria & Hlink & Hplain).
  pose proof (sync_elsewhere c) as He. unfold elsewhere in He.
  injection He as ? ? ? ? ?.
  apply component_eq; try done.
  - rewrite sync_dom. destruct (hasAttribute (dom c) "href").
    + destruct Hlink as (_ & _ & _ & _ & -> & Hrole); [done|].
      by apply removeAttribute_id.
    + specialize (Hplain eq_refl).
      destruct (hasAttribute (dom c) "interactive").
      * destruct Hplain as [Hrole ->]. by apply setAttribute_id.
      * by apply removeAttribute_id.
  - rewrite sync_surface, sync_kind_settled by done. cbv zeta.
    rewrite (surface_set_id "tabindex") by done.
    rewrite (surface_set_id "aria-disabled") by done.
    destruct (hasAttribute (dom c) "href"); [|done].
    destruct Hlink as (Hhref & Htarget & Hrel & Hdl & _); [done|].
    rewrite (surface_set_id "href") by done.
    assert (Ht : (if truthy (getAttribute (dom c) "target")
                  then surface_set "target"
                         (default "" (getAttribute (dom c) "target"))
                         (_surface c)
                  else _surface c) = _surface c).
    { destruct (truthy _) eqn:E; [|done].
      apply surface_set_id. rewrite Htarget by done.
      by destruct (getAttribute (dom c) "target"). }
    rewrite Ht.
    assert (Hr : (if decide (link_rel (dom c) = "") then _surface c
                  else surface_set "rel" (link_rel (dom c)) (_surface c))
                 = _surface c).
    { destruct (decide (link_rel (dom c) = "")); [done|].
      apply surface_set_id. by apply Hrel. }
    rewrite Hr.
    destruct (getAttribute (dom c) "download") as [dl|] eqn:E; [|done].
    apply surface_set_id. by apply Hdl.
Qed.


(** X11. Whatever the element was before, [_syncSurface] leaves it
    synchronised: the surface is an anchor exactly when the host has
    [href], it is out of the tab order and mirrors [disabled], a link
    surface carries the host's link attributes, and the host's role and
    focusability are those of a link, of a button or of a plain container. *)
Theorem sync_surface_postcondition c : synced (_syncSurface c).
Proof. apply sync_establishes. Qed.

(** X12. [_syncSurface] is idempotent: a second call right after the first
    changes nothing, neither on the host nor on the surface. *)
Theorem sync_surface_idempotent c :
  _syncSurface (_syncSurface c) = _syncSurface c.
Proof. apply synced_fixed, sync_establishes. Qed.

(** X13. [_syncSurface] writes to two host attributes only: it sets or
    removes [role], and it adds a [tabindex] where there was none. Every
    other attribute, and a [tabindex] the author has given, keeps its
    value. *)
Theorem sync_surface_host_attributes c name :
  name ≠ "role" →
  (name = "tabindex" → hasAttribute (dom c) "tabindex" = true) →
  getAttribute (dom (_syncSurface c)) name = getAttribute (dom c) name.
Proof.
  intros Hr Ht. destruct (decide (name = "tabindex")) as [->|Hn].
  - rewrite sync_tabindex. specialize (Ht eq_refl).
    rewrite has_attribute_get in Ht. apply bool_decide_eq_true in Ht.
    by destruct (getAttribute (dom c) "tabindex").
  - by apply sync_keeps_attribute.
Qed.

Lemma sync_surface_host_attributes_witness :
  getAttribute
    (dom (_syncSurface
            (constructed initial
               (box (ofZ 10) (ofZ 10) [("href", "/a"); ("tabindex", "3")]))))
    "tabindex"
  = Some "3".
Proof.
  rewrite sync_surface_host_attributes; [reflexivity|discriminate|].
  intros _. vm_compute. reflexivity.
Defined.

(** X14. After [_syncSurface], an enabled host has [role="button"] exactly
    when Enter and Space activate it like a button, that is when
    [_onKeyDown] answers the key by a click dispatched on the surface. *)
Theorem button_role_matches_keyboard c key :
  hasAttribute (dom c) "disabled" = false →
  key = "Enter" ∨ key = " " →
  getAttribute (dom (_syncSurface c)) "role" = Some "button"
  ↔ _onKeyDown key (_syncSurface c)
    = [preventDefault; dispatch_click_on_surface].
Proof.
  intros Hd Hk. rewrite sync_role. unfold _onKeyDown.
  rewrite !sync_keeps_presence by discriminate. rewrite Hd.
  rewrite (bool_decide_eq_true_2 (key = "Enter" ∨ key = " ")) by done.
  destruct (hasAttribute (dom c) "href"),
    (hasAttribute (dom c) "interactive"); simpl;
    try (split; [discriminate|]); try done;
    by destruct (bool_decide (key = "Enter")).
Qed.

Lemma button_role_matches_keyboard_witness :
  _onKeyDown " "
    (_syncSurface
       (constructed initial (box (ofZ 10) (ofZ 10) [("interactive", "")])))
  = [preventDefault; dispatch_click_on_surface].
Proof.
  apply button_role_matches_keyboard.
  - vm_compute. reflexivity.
  - by right.
  - vm_compute. reflexivity.
Defined.

(** X15. A link that opens a new window is protected by default: for a host
    with [href] and [target="_blank"] and without a non-empty [rel], the
    anchor gets [rel="noopener noreferrer"] along with the target. *)
Theorem new_window_link_gets_noopener c :
  hasAttribute (dom c) "href" = true →
  getAttribute (dom c) "target" = Some "_blank" →
  truthy (getAttribute (dom c) "rel") = false →
  tagName (_surface (_syncSurface c)) = "A"
  ∧ surface_attributes (_surface (_syncSurface c)) !! "target" = Some "_blank"
  ∧ surface_attributes (_surface (_syncSurface c)) !! "rel"
    = Some "noopener noreferrer".
Proof.
  intros Hh Ht Hr.
  assert (Hrel : link_rel (dom c) = "noopener noreferrer").
  { unfold link_rel. rewrite Ht. simpl.
    destruct (getAttribute (dom c) "rel") as [r|]; [|done]. simpl in *.
    apply negb_false_iff, bool_decide_eq_true in Hr. subst. done. }
  destruct (sync_establishes c) as (Htag & _ & _ & Hlink & _).
  rewrite sync_tag in Htag.
  rewrite !sync_keeps_presence in Hlink by discriminate.
  unfold link_rel in Hlink.
  rewrite !sync_keeps_attribute in Hlink by discriminate.
  fold (link_rel (dom c)) in Hlink.
  destruct Hlink as (_ & Htarget & Hlrel & _); [done|].
  split_and!.
  - pose proof (sync_tag c) as Hs. rewrite Hh in Hs.
    by apply bool_decide_eq_true in Hs.
  - rewrite Htarget, ?Ht; [done|]. by rewrite Ht.
  - rewrite Hlrel; rewrite Hrel; done.
Qed.

Lemma new_window_link_gets_noopener_witness :
  surface_attributes
    (_surface
       (_syncSurface
          (constructed initial
             (box (ofZ 10) (ofZ 10) [("href", "/a"); ("target", "_blank")]))))
    !! "rel"
  = Some "noopener noreferrer".
Proof.
  apply new_window_link_gets_noopener; vm_compute; reflexivity.
Defined.

Lemma sync_kind_anchor c :
  hasAttribute (dom c) "href" = true → tagName (_surface c) = "A" →
  sync_kind c = c.
Proof.
  intros Hh Ht. apply sync_kind_settled. rewrite Hh.
  by apply bool_decide_eq_true_2.
Qed.

(** X16. A link attribute the host no longer has is not taken off the
    anchor: while the surface stays an anchor, [_syncSurface] leaves its
    [target], [rel] and [download] as they were when the host has no such
    attribute (and, for [rel], asks for no new window). *)
Theorem link_attributes_are_never_cleared c name :
  hasAttribute (dom c) "href" = true →
  tagName (_surface c) = "A" →
  name ∈ ["target"; "rel"; "download"] →
  getAttribute (dom c) name = None →
  getAttribute (dom c) "target" ≠ Some "_blank" →
  surface_attributes (_surface (_syncSurface c)) !! name
  = surface_attributes (_surface c) !! name.
Proof.
  intros Hh Ht Hn Hnone Hblank.
  rewrite sync_surface, sync_kind_anchor, Hh by done. cbv zeta.
  assert (Hcases : name = "target" ∨ name = "rel" ∨ name = "download").
  { apply elem_of_cons in Hn as [->|Hn]; [by left|].
    apply elem_of_cons in Hn as [->|Hn]; [by right; left|].
    apply elem_of_cons in Hn as [->|Hn]; [by right; right|].
    by apply elem_of_nil in Hn. }
  unfold link_rel. rewrite (decide_False (P := _ = Some "_blank")) by done.
  destruct Hcases as [->| [->| ->]]; rewrite Hnone; simpl.
  - destruct (decide (or_else _ _ = "")), (getAttribute (dom c) "download");
      simpl; by lookups.
  - destruct (truthy _), (getAttribute (dom c) "download"); simpl; by lookups.
  - destruct (truthy _), (decide (or_else _ _ = "")); simpl; by lookups.
Qed.

Lemma link_attributes_are_never_cleared_witness :
  surface_attributes
    (_surface
       (_syncSurface
          (on_host (removeAttribute "target")
             (_syncSurface
                (constructed initial
                   (box (ofZ 10) (ofZ 10)
                      [("href", "/a"); ("target", "_top")]))))))
    !! "target"
  = Some "_top".
Proof.
  rewrite (link_attributes_are_never_cleared _ "target").
  - vm_compute. reflexivity.
  - vm_compute. reflexivity.
  - vm_compute. reflexivity.
  - apply list_elem_of_here.
  - vm_compute. reflexivity.
  - vm_compute. discriminate.
Defined.

Lemma slot_of_slot c1 c2 :
  childNodes (_surface c1) = _moveSlot c2 → _moveSlot c1 = _moveSlot c2.
Proof.
  intros H. unfold _moveSlot at 1. rewrite H. unfold _moveSlot.
  destruct (head (filter _ (concat (map descendants (childNodes (_surface c2))))))
    as [n|] eqn:E; [|done].
  assert (Hn : tag_of n = "slot").
  { apply head_Some_elem_of in E. by apply list_elem_of_filter in E as [Hn _]. }
  assert (Hd : ∃ l, descendants n = n :: l) by (destruct n; by eexists).
  destruct Hd as [l Hd].
  change (option_list (Some n)) with [n].
  change (concat (map descendants [n])) with (descendants n ++ []).
  rewrite app_nil_r, Hd.
  by rewrite filter_cons_True by done.
Qed.

Lemma slot_of_children c1 c2 :
  childNodes (_surface c1) = childNodes (_surface c2) →
  _moveSlot c1 = _moveSlot c2.
Proof. unfold _moveSlot. by intros ->. Qed.

(** X17. The content survives every swap of the surface: the slot that
    [_moveSlot] finds after [_syncSurface] is the slot it found before,
    whether the surface was replaced by an element of the other kind or
    kept. *)
Theorem sync_surface_keeps_the_slot c :
  _moveSlot (_syncSurface c) = _moveSlot c.
Proof.
  transitivity (_moveSlot (sync_kind c)).
  - apply slot_of_children. rewrite sync_surface. cbv zeta.
    by repeat case_match.
  - unfold sync_kind. cbv zeta.
    repeat case_match; try done; by apply slot_of_slot.
Qed.

(** X18. A disabled element is inert: its surface announces
    [aria-disabled="true"], a click on the surface is stopped and not
    forwarded to the host, no key activates it, and it neither gets hover
    listeners nor reacts to the pointer. *)
Theorem disabled_element_is_inert c key target_is_host :
  hasAttribute (dom c) "disabled" = true →
  surface_attributes (_surface (_syncSurface c)) !! "aria-disabled"
  = Some "true"
  ∧ _onClick target_is_host (_syncSurface c) = [preventDefault; stopPropagation]
  ∧ _onKeyDown key (_syncSurface c) = []
  ∧ ("mouseenter" ∉ listeners (_setupInteractionListeners (_syncSurface c)))
  ∧ ("mouseleave" ∉ listeners (_setupInteractionListeners (_syncSurface c)))
  ∧ _onMouseEnter (_syncSurface c) = []
  ∧ _onMouseLeave (_syncSurface c) = [].
Proof.
  intros Hd.
  destruct (sync_establishes c) as (_ & _ & Haria & _).
  rewrite sync_keeps_presence in Haria by discriminate. rewrite Hd in Haria.
  assert (Hd' : hasAttribute (dom (_syncSurface c)) "disabled" = true)
    by (by rewrite sync_keeps_presence by discriminate).
  assert (Hi : _isInteractive (dom (_syncSurface c)) = false).
  { unfold _isInteractive. rewrite Hd'. apply andb_false_r. }
  unfold _onClick, _onKeyDown, _onMouseEnter, _onMouseLeave,
    _setupInteractionListeners. cbv zeta.
  change (dom (_removeInteractionListeners (_syncSurface c)))
    with (dom (_syncSurface c)).
  rewrite Hd', Hi. simpl. split_and!; try done.
  - rewrite !elem_of_difference, !elem_of_singleton. tauto.
  - rewrite !elem_of_difference, !elem_of_singleton. tauto.
Qed.

Lemma disabled_element_is_inert_witness :
  _onKeyDown "Enter"
    (_syncSurface
       (constructed initial
          (box (ofZ 10) (ofZ 10) [("href", "/a"); ("disabled", "")])))
  = [].
Proof.
  eapply (disabled_element_is_inert _ "Enter" false).
  vm_compute. reflexivity.
Defined.

(** ** The callbacks and the listeners *)

Lemma update_wiring c : same_wiring c (update c).1.
Proof. unfold update. by destruct (_updateFilter _ _ _). Qed.

Lemma same_wiring_trans c1 c2 c3 :
  same_wiring c1 c2 → same_wiring c2 c3 → same_wiring c1 c3.
Proof.
  intros (? & ? & ? & ? & ?) (? & ? & ? & ? & ?).
  repeat split; congruence.
Qed.

Lemma updates_wiring n c : same_wiring c (updates n c).1.
Proof.
  revert c. induction n as [|n IH]; intros c; [done|].
  simpl. pose proof (update_wiring c) as H1.
  destruct (update c) as [c1 ops1]. pose proof (IH c1) as H2.
  destruct (updates n c1) as [c2 ops2]. simpl in *.
  by eapply same_wiring_trans.
Qed.

Lemma animation_frame_wiring c : same_wiring c (animation_frame c).1.
Proof.
  unfold animation_frame. destruct (dispatch _ _) as [t n].
  eapply same_wiring_trans; [|apply updates_wiring]. done.
Qed.

Lemma wired_same b c1 c2 : same_wiring c1 c2 → wired b c1 → wired b c2.
Proof.
  intros (Hd & Hl & Hs & Ho & _). unfold wired. by rewrite Hd, Hl, Hs, Ho.
Qed.

Lemma sync_interactive c :
  _isInteractive (dom (_syncSurface c)) = _isInteractive (dom c).
Proof.
  unfold _isInteractive. by rewrite !sync_keeps_presence by discriminate.
Qed.

Lemma sync_listeners c : listeners (_syncSurface c) = listeners c.
Proof. pose proof (sync_elsewhere c) as H. by injection H. Qed.

Lemma sync_observer c : _resizeObserver (_syncSurface c) = _resizeObserver c.
Proof. pose proof (sync_elsewhere c) as H. by injection H. Qed.

Lemma sync_connected c : isConnected (_syncSurface c) = isConnected c.
Proof. pose proof (sync_elsewhere c) as H. by injection H. Qed.

Lemma sync_click_listener c :
  click_listener (_surface c) = true →
  click_listener (_surface (_syncSurface c)) = true.
Proof.
  intros H. rewrite sync_surface. cbv zeta.
  assert (Hk : click_listener (_surface (sync_kind c)) = true)
    by (unfold sync_kind; cbv zeta; by repeat case_match).
  by repeat case_match.
Qed.

Lemma setup_listeners c type :
  type ∈ listeners (_setupInteractionListeners c)
  ↔ if bool_decide (type ∈ ["mouseenter"; "mouseleave"])
    then _isInteractive (dom c) = true
    else type ∈ listeners c.
Proof.
  unfold _setupInteractionListeners, _removeInteractionListeners. cbv zeta.
  change (dom (with_listeners _ c)) with (dom c).
  assert (Hin : type ∈ ["mouseenter"; "mouseleave"]
                ↔ type = "mouseenter" ∨ type = "mouseleave").
  { rewrite !elem_of_cons, elem_of_nil. tauto. }
  destruct (_isInteractive (dom c)); simpl;
    rewrite ?elem_of_union, !elem_of_difference, !elem_of_singleton;
    case_bool_decide; intuition congruence.
Qed.

Lemma setup_wiring c :
  dom (_setupInteractionListeners c) = dom c
  ∧ _surface (_setupInteractionListeners c) = _surface c
  ∧ _resizeObserver (_setupInteractionListeners c) = _resizeObserver c
  ∧ isConnected (_setupInteractionListeners c) = isConnected c.
Proof.
  unfold _setupInteractionListeners, _removeInteractionListeners. cbv zeta.
  by case_match.
Qed.

Lemma attribute_changed_result name c :
  ∃ c1, same_wiring (_syncSurface c) c1
        ∧ (attributeChangedCallback name c).1
          = if bool_decide (name ∈ ["href"; "interactive"; "disabled"])
            then _setupInteractionListeners c1 else c1.
Proof.
  unfold attributeChangedCallback. cbv zeta.
  destruct (bool_decide (name ∈ ["strength"; "depth"; "blur"; "chromatic"])).
  - exists (update (_syncSurface c)).1. split; [apply update_wiring|].
    by destruct (update (_syncSurface c)).
  - by exists (_syncSurface c).
Qed.


Lemma setup_wired b c :
  "keydown" ∈ listeners c → click_listener (_surface c) = true →
  (b = true → _resizeObserver c = Some true) →
  wired b (_setupInteractionListeners c).
Proof.
  intros Hk Hc Ho. destruct (setup_wiring c) as (Hd & Hs & Hob & _).
  unfold wired. rewrite Hd, Hs, Hob. split_and!; try done.
  - by apply setup_listeners.
  - intros type Ht. rewrite setup_listeners.
    by rewrite bool_decide_eq_true_2.
Qed.

Lemma interactive_depends h1 h2 :
  (∀ n, n ∈ ["href"; "interactive"; "disabled"] →
        hasAttribute h1 n = hasAttribute h2 n) →
  _isInteractive h1 = _isInteractive h2.
Proof.
  intros H. unfold _isInteractive.
  rewrite !H; [done|..];
    repeat first [apply list_elem_of_here | apply list_elem_of_further].
Qed.

Lemma attribute_changed_wired b name c c0 :
  listeners c0 = listeners c → _surface c0 = _surface c →
  _resizeObserver c0 = _resizeObserver c →
  (name ∉ ["href"; "interactive"; "disabled"] →
   _isInteractive (dom c0) = _isInteractive (dom c)) →
  wired b c → wired b (attributeChangedCallback name c0).1.
Proof.
  intros Hl Hs Ho Hi (Hk & Hc & Hh & Hob).
  destruct (attribute_changed_result name c0) as (c1 & Hw & ->).
  assert (Hw0 : "keydown" ∈ listeners c1
                ∧ click_listener (_surface c1) = true
                ∧ (b = true → _resizeObserver c1 = Some true)).
  { destruct Hw as (_ & <- & <- & <- & _).
    rewrite sync_listeners, sync_observer, Hl, Ho. split_and!; try done.
    apply sync_click_listener. by rewrite Hs. }
  destruct Hw0 as (Hk1 & Hc1 & Ho1).
  case_bool_decide as Hn; [by apply setup_wired|].
  unfold wired. split_and!; try done.
  destruct Hw as (<- & <- & _).
  rewrite sync_listeners, sync_interactive, Hl, Hi by done. done.
Qed.

Lemma set_attribute_elsewhere name value h n :
  n ≠ name →
  hasAttribute (setAttribute name value h) n = hasAttribute h n.
Proof.
  intros Hn. rewrite has_set. by rewrite bool_decide_eq_false_2.
Qed.

Lemma remove_attribute_elsewhere name h n :
  n ≠ name → hasAttribute (removeAttribute name h) n = hasAttribute h n.
Proof.
  intros Hn. rewrite has_remove. by rewrite bool_decide_eq_false_2.
Qed.

Lemma observed_three name :
  name ∉ observedAttributes → name ∉ ["href"; "interactive"; "disabled"].
Proof.
  unfold observedAttributes. rewrite !not_elem_of_cons. tauto.
Qed.

Lemma attribute_changed_connected name c :
  isConnected (attributeChangedCallback name c).1 = isConnected c.
Proof.
  destruct (attribute_changed_result name c) as (c1 & Hw & ->).
  destruct Hw as (_ & _ & _ & _ & Hc).
  case_bool_decide.
  - destruct (setup_wiring c1) as (_ & _ & _ & ->).
    rewrite <- Hc. apply sync_connected.
  - rewrite <- Hc. apply sync_connected.
Qed.

Lemma connected_wired b c : wired b (connectedCallback b c).1.
Proof.
  unfold connectedCallback. cbv zeta.
  eapply wired_same; [apply update_wiring|].
  set (c1 := on_surface _ _).
  assert (Hw : wired false (_setupInteractionListeners c1)).
  { apply setup_wired; [|done|done].
    unfold c1. simpl. apply elem_of_union_r. by apply elem_of_singleton. }
  destruct Hw as (Hk & Hc & Hh & _).
  destruct b; unfold wired; split_and!; done.
Qed.

Lemma disconnected_connected c :
  isConnected (disconnectedCallback c) = isConnected c.
Proof. unfold disconnectedCallback. cbv zeta. by case_match. Qed.

Lemma react_wired b c ev :
  (isConnected c = true → wired b c) →
  isConnected (react b c ev).1 = true → wired b (react b c ev).1.
Proof.
  intros Hinv. destruct ev as [| |name value|name|w h| |]; simpl.
  - intros _. apply connected_wired.
  - rewrite disconnected_connected. discriminate.
  - case_bool_decide as Hobs.
    + rewrite attribute_changed_connected. intros Hc.
      apply (attribute_changed_wired b name c); try done; [|by apply Hinv].
      intros Hn. apply interactive_depends. intros n Hin.
      apply set_attribute_elsewhere. by intros ->.
    + simpl. intros Hc. destruct (Hinv Hc) as (Hk & Hcl & Hh & Ho).
      unfold wired. simpl. split_and!; try done.
      intros type Ht. rewrite (Hh type Ht).
      rewrite (interactive_depends (setAttribute name value (dom c)) (dom c));
        [done|].
      intros n Hin. apply set_attribute_elsewhere. intros ->.
      by apply observed_three in Hobs.
  - destruct (hasAttribute (dom c) name); [|by simpl].
    case_bool_decide as Hobs.
    + rewrite attribute_changed_connected. intros Hc.
      apply (attribute_changed_wired b name c); try done; [|by apply Hinv].
      intros Hn. apply interactive_depends. intros n Hin.
      apply remove_attribute_elsewhere. by intros ->.
    + simpl. intros Hc. destruct (Hinv Hc) as (Hk & Hcl & Hh & Ho).
      unfold wired. simpl. split_and!; try done.
      intros type Ht. rewrite (Hh type Ht).
      rewrite (interactive_depends (removeAttribute name (dom c)) (dom c));
        [done|].
      intros n Hin. apply remove_attribute_elsewhere. intros ->.
      by apply observed_three in Hobs.
  - done.
  - by case_bool_decide.
  - pose proof (animation_frame_wiring c) as Hw.
    destruct Hw as (Hd & Hl & Hs & Ho & Hc). rewrite <- Hc. intros Hcon.
    eapply wired_same; [|by apply Hinv]. done.
Qed.

Lemma react_all_wired b c evs :
  (isConnected c = true → wired b c) →
  isConnected (react_all b c evs).1 = true → wired b (react_all b c evs).1.
Proof.
  revert c. induction evs as [|ev evs IH]; intros c Hinv; [done|].
  simpl. pose proof (react_wired b c ev Hinv) as H1.
  destruct (react b c ev) as [c1 ops1]. specialize (IH c1 H1).
  by destruct (react_all b c1 evs).
Qed.


(** X19. A connected element is fully wired, whatever happened to it
    before: after any sequence of connections, disconnections, attribute
    changes, reflows, resize notifications and frames, an element that is
    connected listens to [keydown], its current surface forwards clicks, it
    has the two hover listeners exactly when it is interactive, and its
    resize observer, where the platform has one, observes it. *)
Theorem connected_element_is_wired b c evs :
  isConnected c = false →
  isConnected (react_all b c evs).1 = true →
  wired b (react_all b c evs).1.
Proof. intros H. apply react_all_wired. rewrite H. discriminate. Qed.

Lemma connected_element_is_wired_witness :
  wired true
    (react_all true
       (constructed initial (box (ofZ 0) (ofZ 0) [("href", "/a")]))
       [Connect; SetAttribute "disabled" ""; RemoveAttribute "href";
        ResizeNotification; Frame]).1.
Proof.
  apply connected_element_is_wired; vm_compute; reflexivity.
Defined.

Lemma updates_published n c1 c2 :
  dom c1 = dom c2 → glass c1 = glass c2 →
  (updates n c1).2 = (updates n c2).2.
Proof.
  revert c1 c2. induction n as [|n IH]; intros c1 c2 Hd Hg; [done|].
  simpl. unfold update. rewrite Hd, Hg.
  destruct (_updateFilter false (dom c2) (glass c2)) as [g ops].
  specialize (IH (with_glass g c1) (with_glass g c2) Hd eq_refl).
  destruct (updates n (with_glass g c1)), (updates n (with_glass g c2)).
  simpl in IH. by rewrite IH.
Qed.

(** X20. [disconnectedCallback] takes the wiring down but cancels no frame:
    afterwards the host has none of the three listeners, the surface does
    not forward clicks, the observer is stopped so that a resize
    notification does nothing; a frame requested before still runs and
    publishes what it would have published. *)
Theorem disconnect_unwires_but_keeps_the_frame b c :
  let c' := disconnectedCallback c in
  (∀ type, type ∈ ["keydown"; "mouseenter"; "mouseleave"] →
           type ∉ listeners c')
  ∧ click_listener (_surface c') = false
  ∧ react b c' ResizeNotification = (c', [])
  ∧ timing c' = timing c
  ∧ (animation_frame c').2 = (animation_frame c).2.
Proof.
  assert (Hfields : dom (disconnectedCallback c) = dom c
                    ∧ glass (disconnectedCallback c) = glass c
                    ∧ timing (disconnectedCallback c) = timing c
                    ∧ listeners (disconnectedCallback c)
                      = listeners c ∖ {["keydown"]} ∖ {["mouseenter"]}
                          ∖ {["mouseleave"]}
                    ∧ click_listener (_surface (disconnectedCallback c)) = false
                    ∧ _resizeObserver (disconnectedCallback c) ≠ Some true).
  { unfold disconnectedCallback. cbv zeta. simpl.
    destruct (_resizeObserver c) eqn:E; simpl; rewrite ?E;
      split_and!; done. }
  destruct Hfields as (Hd & Hg & Ht & Hl & Hc & Ho).
  cbv zeta. split_and!; try done.
  - intros type Hin. rewrite Hl.
    rewrite !elem_of_cons, elem_of_nil in Hin.
    rewrite !elem_of_difference, !elem_of_singleton. tauto.
  - simpl. by rewrite bool_decide_eq_false_2.
  - unfold animation_frame. rewrite Ht.
    destruct (dispatch (timing c) AnimationFrame) as [t n].
    by apply updates_published.
Qed.

Lemma with_timing_same c : with_timing (timing c) c = c.
Proof. by destruct c. Qed.




Lemma published_defaults style force h this :
  measurable h = true → _isInteractive h = true →
  publish style (_updateFilter force h this).2 !! "--lg-opacity" = Some "0.85"
  ∧ publish style (_updateFilter force h this).2 !! "--lg-scale" = Some "1".
Proof.
  intros Hm Hi. rewrite update_unfold by done.
  unfold interactive_calls. rewrite Hi.
  destruct (negb force && _); cbn [snd]; rewrite !publish_app;
    cbn [publish foldl apply_op];
    repeat first [rewrite lookup_insert_eq
                 |rewrite lookup_insert_ne by discriminate]; done.
Qed.

(** X22. Leaving undoes entering: on an element with a box, the style after
    an update cycle followed by [mouseenter] and [mouseleave] is the style
    right after the update cycle; the values [_onMouseLeave] writes are the
    defaults [_updateFilter] publishes. *)
Theorem hover_round_trip style c :
  measurable (dom c) = true →
  publish style ((update c).2 ++ _onMouseEnter c ++ _onMouseLeave c)
  = publish style (update c).2.
Proof.
  intros Hm. rewrite publish_app.
  unfold _onMouseEnter, _onMouseLeave.
  destruct (_isInteractive (dom c)) eqn:Hi; [|done]. simpl negb. cbv iota.
  assert (Hu : (update c).2 = (_updateFilter false (dom c) (glass c)).2)
    by (unfold update; by destruct (_updateFilter _ _ _)).
  rewrite Hu.
  destruct (published_defaults style false (dom c) (glass c) Hm Hi)
    as [Ho Hs].
  set (m := publish style _) in *.
  cbn [app publish foldl apply_op].
  apply map_eq. intros k.
  destruct (decide (k = "--lg-scale")) as [->|Hk1].
  { by rewrite lookup_insert_eq. }
  rewrite lookup_insert_ne by done.
  destruct (decide (k = "--lg-opacity")) as [->|Hk2].
  { by rewrite lookup_insert_eq. }
  by rewrite !lookup_insert_ne by done.
Qed.

Lemma hover_round_trip_witness :
  publish ∅
    ((update (constructed initial (box (ofZ 8) (ofZ 8) [("href", "/a")]))).2
       ++ _onMouseEnter
            (constructed initial (box (ofZ 8) (ofZ 8) [("href", "/a")]))
       ++ _onMouseLeave
            (constructed initial (box (ofZ 8) (ofZ 8) [("href", "/a")])))
  = publish ∅
      (update (constructed initial (box (ofZ 8) (ofZ 8) [("href", "/a")]))).2.
Proof.
  apply hover_round_trip. vm_compute. reflexivity.
Defined.

(** X23. Only the four filter attributes reach the style: setting or
    removing any other attribute, [href], [interactive] and [disabled]
    included, makes no call on the host's style, so the opacity and scale
    defaults follow a change of interactivity only at the next update
    cycle. *)
Theorem other_attributes_publish_nothing b c name value :
  name ∉ ["strength"; "depth"; "blur"; "chromatic"] →
  (react b c (SetAttribute name value)).2 = []
  ∧ (react b c (RemoveAttribute name)).2 = [].
Proof.
  intros Hn.
  assert (Ha : ∀ c0, (attributeChangedCallback name c0).2 = []).
  { intros c0. unfold attributeChangedCallback. cbv zeta.
    by rewrite bool_decide_eq_false_2. }
  split; simpl.
  - by case_bool_decide.
  - destruct (hasAttribute (dom c) name); [|done]. by case_bool_decide.
Qed.

Lemma other_attributes_publish_nothing_witness :
  (react true
     (constructed initial (box (ofZ 8) (ofZ 8) []))
     (SetAttribute "interactive" "")).2 = [].
Proof.
  apply (other_attributes_publish_nothing true _ "interactive" "").
  apply (bool_decide_unpack _). vm_compute. exact I.
Defined.

(** X24. The hover listeners come back on a disconnected element: after
    [disconnectedCallback] has removed them, setting [href] or
    [interactive] on an element that is not disabled adds both of them
    again. *)
Theorem listeners_return_while_disconnected b c name value type :
  name ∈ ["href"; "interactive"] →
  hasAttribute (dom c) "disabled" = false →
  type ∈ ["mouseenter"; "mouseleave"] →
  type ∈ listeners
           (react b (disconnectedCallback c) (SetAttribute name value)).1.
Proof.
  intros Hn Hd Ht.
  assert (Hdom : dom (disconnectedCallback c) = dom c).
  { unfold disconnectedCallback. cbv zeta. by case_match. }
  cbn [react].
  rewrite bool_decide_eq_true_2.
  2:{ unfold observedAttributes. rewrite !elem_of_cons in Hn.
      rewrite !elem_of_cons. tauto. }
  destruct (attribute_changed_result name
              (on_host (setAttribute name value) (disconnectedCallback c)))
    as (c1 & Hw & ->).
  rewrite bool_decide_eq_true_2.
  2:{ rewrite !elem_of_cons in Hn. rewrite !elem_of_cons. tauto. }
  apply setup_listeners. rewrite bool_decide_eq_true_2 by done.
  destruct Hw as (<- & _). rewrite sync_interactive. simpl. rewrite Hdom.
  unfold _isInteractive.
  rewrite (set_attribute_elsewhere name value (dom c) "disabled").
  2:{ intros <-. rewrite !elem_of_cons, elem_of_nil in Hn.
      destruct Hn as [?|[?|[]]]; discriminate. }
  rewrite Hd, andb_true_r.
  rewrite !has_set.
  rewrite !elem_of_cons, elem_of_nil in Hn.
  destruct Hn as [->|[->|[]]].
  - by rewrite bool_decide_eq_true_2.
  - rewrite (bool_decide_eq_true_2 ("interactive" = "interactive")) by done.
    by rewrite !orb_true_r.
Qed.

Lemma listeners_return_while_disconnected_witness :
  "mouseenter"
  ∈ listeners
      (react true
         (disconnectedCallback
            (constructed initial (box (ofZ 8) (ofZ 8) [])))
         (SetAttribute "href" "/a")).1.
Proof.
  apply listeners_return_while_disconnected.
  - apply list_elem_of_here.
  - vm_compute. reflexivity.
  - apply list_elem_of_here.
Defined.

Lemma synced_depends c1 c2 :
  attributes (dom c1) = attributes (dom c2) →
  tagName (_surface c1) = tagName (_surface c2) →
  surface_attributes (_surface c1) = surface_attributes (_surface c2) →
  synced c1 → synced c2.
Proof.
  unfold synced, link_rel, hasAttribute, getAttribute. cbv zeta.
  by intros -> -> ->.
Qed.

Lemma synced_same c1 c2 : same_wiring c1 c2 → synced c1 → synced c2.
Proof.
  intros (Hd & _ & Hs & _). apply synced_depends; by rewrite ?Hd, ?Hs.
Qed.

Lemma setup_synced c : synced c → synced (_setupInteractionListeners c).
Proof.
  destruct (setup_wiring c) as (Hd & Hs & _).
  apply synced_depends; by rewrite ?Hd, ?Hs.
Qed.

Lemma attribute_changed_synced name c :
  synced (attributeChangedCallback name c).1.
Proof.
  destruct (attribute_changed_result name c) as (c1 & Hw & ->).
  assert (Hs : synced c1)
    by (eapply synced_same; [done|apply sync_establishes]).
  case_bool_decide; [by apply setup_synced|done].
Qed.

Lemma connected_synced b c : synced (connectedCallback b c).1.
Proof.
  unfold connectedCallback. cbv zeta.
  eapply synced_same; [apply update_wiring|].
  set (c1 := on_surface _ _).
  assert (Hs : synced (_setupInteractionListeners c1)).
  { apply setup_synced. unfold c1.
    eapply synced_depends; [..|apply (sync_establishes c)]; done. }
  destruct b; [|done].
  eapply synced_depends; [..|apply Hs]; done.
Qed.

Lemma react_synced b c ev :
  observed_event ev → synced c → synced (react b c ev).1.
Proof.
  intros Hobs Hs. destruct ev as [| |name value|name|w h| |]; simpl in *.
  - apply connected_synced.
  - unfold disconnectedCallback. cbv zeta.
    eapply synced_depends; [..|apply Hs]; by case_match.
  - rewrite bool_decide_eq_true_2 by done. apply attribute_changed_synced.
  - destruct (hasAttribute (dom c) name); [|done].
    rewrite bool_decide_eq_true_2 by done. apply attribute_changed_synced.
  - eapply synced_depends; [..|apply Hs]; done.
  - by case_bool_decide.
  - eapply synced_same; [apply animation_frame_wiring|done].
Qed.

(** X25. Once connected, the element stays synchronised as long as only
    observed attributes are written: after [connectedCallback] and any
    further connections, disconnections, changes of observed attributes,
    reflows, resize notifications and frames, the surface and the host's
    role and focusability are those [_syncSurface] establishes. *)
Theorem synchronised_under_observed_changes b c evs :
  Forall observed_event evs →
  synced (react_all b c (Connect :: evs)).1.
Proof.
  intros Hobs.
  assert (Hgen : ∀ c0, synced c0 → synced (react_all b c0 evs).1).
  { induction Hobs as [|ev evs Hev Hevs IH]; intros c0 Hs; [done|].
    simpl. pose proof (react_synced b c0 ev Hev Hs) as H1.
    destruct (react b c0 ev) as [c1 ops1]. specialize (IH c1 H1).
    by destruct (react_all b c1 evs). }
  cbn [react_all react].
  pose proof (connected_synced b (with_connected true c)) as H0.
  destruct (connectedCallback b (with_connected true c)) as [c1 ops1].
  specialize (Hgen c1 H0). by destruct (react_all b c1 evs).
Qed.

Lemma synchronised_under_observed_changes_witness :
  synced
    (react_all true (constructed initial (box (ofZ 0) (ofZ 0) []))
       [Connect; SetAttribute "href" "/a"; SetAttribute "target" "_blank";
        RemoveAttribute "href"; Frame]).1.
Proof.
  apply synchronised_under_observed_changes.
  repeat apply Forall_cons_2; try apply Forall_nil_2; try exact I;
    unfold observed_event, observedAttributes;
    repeat first [apply list_elem_of_here | apply list_elem_of_further].
Defined.

(** ** Frame coalescing *)

Lemma update_schedule c :
  timing (update c).1 = timing c
  ∧ _resizeObserver (update c).1 = _resizeObserver c.
Proof. unfold update. by destruct (_updateFilter _ _ _). Qed.

Lemma setup_schedule c :
  timing (_setupInteractionListeners c) = timing c
  ∧ _resizeObserver (_setupInteractionListeners c) = _resizeObserver c.
Proof.
  unfold _setupInteractionListeners, _removeInteractionListeners. cbv zeta.
  by case_match.
Qed.

Lemma sync_schedule c :
  timing (_syncSurface c) = timing c
  ∧ _resizeObserver (_syncSurface c) = _resizeObserver c.
Proof. pose proof (sync_elsewhere c) as H. by injection H. Qed.

Lemma attribute_changed_schedule name c :
  timing (attributeChangedCallback name c).1 = timing c
  ∧ _resizeObserver (attributeChangedCallback name c).1 = _resizeObserver c.
Proof.
  unfold attributeChangedCallback. cbv zeta.
  destruct (sync_schedule c) as [Ht Ho].
  destruct (update_schedule (_syncSurface c)) as [Hut Huo].
  destruct (bool_decide (name ∈ ["strength"; "depth"; "blur"; "chromatic"]));
    [destruct (update (_syncSurface c)) as [c1 ops]; simpl in Hut, Huo|];
    case_bool_decide; simpl;
    rewrite ?(proj1 (setup_schedule _)), ?(proj2 (setup_schedule _));
    split; congruence.
Qed.

Lemma filter_attribute_not_interactive name :
  name ∈ ["strength"; "depth"; "blur"; "chromatic"] →
  name ∉ ["href"; "interactive"; "disabled"].
Proof.
  intros Hn. rewrite !elem_of_cons, elem_of_nil in Hn.
  destruct Hn as [->|[->|[->|[->|[]]]]];
    rewrite !not_elem_of_cons; split_and!;
    try discriminate; apply not_elem_of_nil.
Qed.

Lemma attribute_changed_filter name c :
  name ∈ ["strength"; "depth"; "blur"; "chromatic"] →
  attributeChangedCallback name c = update (_syncSurface c).
Proof.
  intros Hn. pose proof (filter_attribute_not_interactive name Hn) as Hi.
  unfold attributeChangedCallback. cbv zeta.
  rewrite bool_decide_eq_true_2 by done.
  rewrite (bool_decide_eq_false_2 _ Hi).
  by destruct (update (_syncSurface c)).
Qed.

Lemma react_between_frames b c ev :
  between_frames ev →
  _resizeObserver (react b c ev).1 = _resizeObserver c
  ∧ timing (react b c ev).1
    = match ev with
      | ResizeNotification =>
          if bool_decide (_resizeObserver c = Some true)
          then (dispatch (timing c) Resize).1 else timing c
      | _ => timing c
      end.
Proof.
  intros Hev. destruct ev as [| |name value|name|w h| |]; try done; simpl.
  - case_bool_decide; [|done].
    destruct (attribute_changed_schedule name
                (on_host (setAttribute name value) c)) as [-> ->]. done.
  - destruct (hasAttribute (dom c) name); [|done].
    case_bool_decide; [|done].
    destruct (attribute_changed_schedule name
                (on_host (removeAttribute name) c)) as [-> ->]. done.
  - by case_bool_decide.
Qed.

Lemma between_frames_schedule b c evs :
  _resizeObserver c = Some true →
  timing c = idle ∨ timing c = {| _pending := true; scheduled := 1 |} →
  Forall between_frames evs →
  _resizeObserver (react_all b c evs).1 = Some true
  ∧ timing (react_all b c evs).1
    = if bool_decide (ResizeNotification ∈ evs)
      then {| _pending := true; scheduled := 1 |} else timing c.
Proof.
  intros Ho Ht Hevs. revert c Ho Ht.
  induction Hevs as [|ev evs Hev Hevs IH]; intros c Ho Ht; [done|].
  destruct (react_between_frames b c ev Hev) as [Ho1 Ht1].
  cbn [react_all]. destruct (react b c ev) as [c1 ops1]. simpl in Ho1, Ht1.
  rewrite Ho in Ho1.
  assert (Hstep : timing c1
                  = if bool_decide (ev = ResizeNotification)
                    then {| _pending := true; scheduled := 1 |}
                    else timing c).
  { rewrite Ht1. destruct ev; try done.
    rewrite bool_decide_eq_true_2 by done.
    rewrite (bool_decide_eq_true_2 (ResizeNotification = ResizeNotification))
      by done.
    by destruct Ht as [-> | ->]. }
  assert (Ht' : timing c1 = idle
                ∨ timing c1 = {| _pending := true; scheduled := 1 |}).
  { rewrite Hstep. case_bool_decide; [by right|done]. }
  destruct (IH c1 Ho1 Ht') as [Ho2 Ht2].
  destruct (react_all b c1 evs) as [c2 ops2]. simpl in *.
  split; [done|]. rewrite Ht2, Hstep.
  destruct (bool_decide (ResizeNotification ∈ evs)) eqn:Hin.
  - apply bool_decide_eq_true in Hin.
    by rewrite bool_decide_eq_true_2 by (by right).
  - apply bool_decide_eq_false in Hin.
    case_bool_decide as Hev'.
    + subst ev. by rewrite bool_decide_eq_true_2 by left.
    + rewrite bool_decide_eq_false_2; [done|].
      rewrite elem_of_cons. intros [?|?]; done.
Qed.

(** C9. On an element whose observer runs and which has nothing scheduled,
    whatever resize notifications, attribute writes and reflows arrive
    before the next frame: that frame makes exactly one call of
    [_updateFilter] if a resize notification was among them and none
    otherwise, and leaves nothing scheduled and the observer running, so
    that the same holds of the frame after it.  A resize notification itself
    calls nothing, and one that arrives while a frame is pending is
    dropped.  An edit of strength, depth, blur or chromatic, in contrast,
    runs [_updateFilter] inside [attributeChangedCallback], right after
    [_syncSurface]: the callback does what one call does, at once, and
    touches neither the flag nor the queue. *)
Theorem one_update_per_frame b c evs :
  _resizeObserver c = Some true →
  timing c = idle →
  Forall between_frames evs →
  let c1 := (react_all b c evs).1 in
  dispatch (timing c1) AnimationFrame
    = (idle, if bool_decide (ResizeNotification ∈ evs) then 1%nat else 0%nat)
  ∧ react b c1 Frame
    = (if bool_decide (ResizeNotification ∈ evs)
       then update (with_timing idle c1) else (c1, []))
  ∧ timing (react b c1 Frame).1 = idle
  ∧ _resizeObserver (react b c1 Frame).1 = Some true
  ∧ (∀ c0, ∃ t, react b c0 ResizeNotification = (with_timing t c0, [])
                ∧ (_pending (timing c0) = true → t = timing c0))
  ∧ (∀ c0 name,
       name ∈ ["strength"; "depth"; "blur"; "chromatic"] →
       attributeChangedCallback name c0 = update (_syncSurface c0)
       ∧ timing (attributeChangedCallback name c0).1 = timing c0).
Proof.
  intros Ho Ht Hevs c1.
  destruct (between_frames_schedule b c evs Ho (or_introl Ht) Hevs)
    as [Ho1 Ht1].
  fold c1 in Ho1, Ht1. rewrite Ht in Ht1.
  assert (Hd : dispatch (timing c1) AnimationFrame
               = (idle, if bool_decide (ResizeNotification ∈ evs)
                        then 1%nat else 0%nat)).
  { rewrite Ht1. by case_bool_decide. }
  assert (Hf : react b c1 Frame
               = (if bool_decide (ResizeNotification ∈ evs)
                  then update (with_timing idle c1) else (c1, []))).
  { cbn [react]. unfold animation_frame. rewrite Hd.
    destruct (bool_decide (ResizeNotification ∈ evs)); cbn [updates].
    - destruct (update (with_timing idle c1)) as [c2 ops].
      by rewrite app_nil_r.
    - f_equal. rewrite <- Ht1. apply with_timing_same. }
  split_and!.
  - done.
  - done.
  - rewrite Hf. destruct (bool_decide (ResizeNotification ∈ evs)).
    + by destruct (update_schedule (with_timing idle c1)) as [-> _].
    + done.
  - rewrite Hf. destruct (bool_decide (ResizeNotification ∈ evs)).
    + by destruct (update_schedule (with_timing idle c1)) as [_ ->].
    + done.
  - intros c0. cbn [react].
    destruct (bool_decide (_resizeObserver c0 = Some true)).
    + exists (dispatch (timing c0) Resize).1. split; [done|].
      intros Hp. simpl. by rewrite Hp.
    + exists (timing c0). by rewrite with_timing_same.
  - intros c0 name Hn. split; [by apply attribute_changed_filter|].
    by destruct (attribute_changed_schedule name c0) as [-> _].
Qed.

Lemma one_update_per_frame_witness :
  let c := (connectedCallback true
              (constructed initial (box (ofZ 40) (ofZ 30) []))).1 in
  let evs := [ResizeNotification; ResizeNotification;
              SetAttribute "blur" "3"; ResizeNotification] in
  let c1 := (react_all true c evs).1 in
  dispatch (timing c1) AnimationFrame = (idle, 1%nat)
  ∧ react true c1 Frame = update (with_timing idle c1).
Proof.
  intros c evs c1.
  assert (Ho : _resizeObserver c = Some true) by (vm_compute; reflexivity).
  assert (Ht : timing c = idle) by (vm_compute; reflexivity).
  assert (Hevs : Forall between_frames evs)
    by (repeat apply Forall_cons_2; try apply Forall_nil_2; exact I).
  assert (Hin : ResizeNotification ∈ evs) by apply list_elem_of_here.
  pose proof (one_update_per_frame true c evs Ho Ht Hevs) as H.
  cbv zeta in H. rewrite (bool_decide_eq_true_2 _ Hin) in H.
  exact (conj (proj1 H) (proj1 (proj2 H))).
Defined.
